(** * RFIDReader: the tag ingestion and dedup pipeline of [RFIDReader.py]

    A shallow embedding of the console RFID reader: the driver callback
    [tag_report_cb], the display worker [process_tags_console], the command
    functions ([clear_tag_data], [start_reading], [stop_reading],
    [print_reader_state]), the prompt loop [user_interface] and the shutdown
    tail of [main].

    Python objects are modelled as follows.
    - a raw tag report (a [dict] keyed by field name) is a [gmap string PyVal];
    - the record built by the callback (a [dict] with the four fixed keys
      [epc], [channel], [last_seen], [seen_count]) is the record [TagData];
    - [SEEN_TAGS = deque(maxlen=100)] is a [deque]: its items, oldest first,
      together with its [maxlen];
    - [seen_epcs = set()] is a [gset string];
    - [TAG_QUEUE = Queue()] is a list, head first out;
    - [print] appends a [Line] to [stdout];
    - functions that may raise return a [Result]. *)

From Stdlib Require Import Strings.Ascii Strings.String Strings.Byte.
From stdpp Require Import base decidable option list gmap sets strings relations.

(** ** Python values and exceptions *)

Inductive PyVal : Type :=
  | PyNone
  | PyInt (z : Z)
  | PyBytes (b : list Byte.byte)
  | PyStr (s : string).

Inductive PyExn : Type :=
  | KeyError (key : string)
  | AttributeError (attr : string)
  | UnicodeDecodeError
  | EOFError
  | LLRPError (msg : string).

#[global] Instance byte_eq_dec : EqDecision Byte.byte := Byte.byte_eq_dec.

#[global] Instance PyVal_eq_dec : EqDecision PyVal.
Proof. solve_decision. Defined.

#[global] Instance PyExn_eq_dec : EqDecision PyExn.
Proof. solve_decision. Defined.

(** [b.decode("ascii")]: every byte must be below 0x80. *)
Definition is_ascii_byte (b : Byte.byte) : bool := (Byte.to_N b <? 128)%N.

Definition decode_ascii (bs : list Byte.byte) : PyExn + string :=
  if forallb is_ascii_byte bs
  then inr (string_of_list_ascii (map ascii_of_byte bs))
  else inl UnicodeDecodeError.

(** [v.decode("ascii")] on an arbitrary value: only [bytes] has the method. *)
Definition py_decode_ascii (v : PyVal) : PyExn + string :=
  match v with
  | PyBytes bs => decode_ascii bs
  | _ => inl (AttributeError "decode")
  end.

(** [d[k]] and [d.get(k)] on a dict. *)
Definition py_getitem (d : gmap string PyVal) (k : string) : PyExn + PyVal :=
  match d !! k with
  | Some v => inr v
  | None => inl (KeyError k)
  end.

Definition py_get (d : gmap string PyVal) (k : string) : PyVal :=
  default PyNone (d !! k).

(** ** Tag records *)

Record TagData : Type := mkTagData {
  epc : string;
  channel : PyVal;
  last_seen : PyVal;
  seen_count : PyVal;
}.

#[global] Instance TagData_eq_dec : EqDecision TagData.
Proof. solve_decision. Defined.

(** ** [collections.deque] with a [maxlen] *)

Record deque (A : Type) : Type := mkDeque {
  maxlen : nat;
  items : list A;
}.
Arguments mkDeque {A} _ _.
Arguments maxlen {A} _.
Arguments items {A} _.

Definition deque_new {A} (n : nat) : deque A := mkDeque n [].

(** [d.append(x)]: the item is added on the right, then the deque is trimmed
    from the left when it has grown past [maxlen]. *)
Definition deque_append {A} (d : deque A) (x : A) : deque A :=
  let xs := items d ++ [x] in
  mkDeque (maxlen d) (if decide (maxlen d < length xs) then drop 1 xs else xs).

Definition deque_clear {A} (d : deque A) : deque A := mkDeque (maxlen d) [].

(** ** The reader handle and the console *)

Record LLRPReaderClient : Type := mkReader {
  is_alive : bool;
  llrp_state : Z;
}.

Inductive LLRPCall : Type :=
  | startInventory
  | stopPolitely
  | disconnect.

#[global] Instance LLRPCall_eq_dec : EqDecision LLRPCall.
Proof. solve_decision. Defined.

Inductive Line : Type :=
  | out_error_parsing_tag (e : PyExn)
  | out_tag_data_cleared
  | out_started_inventory
  | out_stopped_inventory
  | out_reader_state (st : Z)
  | out_reader_not_connected
  | out_new_tag
  | out_tag_details (e : string) (ch seen time : PyVal)
  | out_commands
  | out_prompt
  | out_unknown_command
  | out_reader_disconnected.

#[global] Instance Line_eq_dec : EqDecision Line.
Proof. solve_decision. Defined.

(** ** The program state *)

Record World : Type := mkWorld {
  READER : option LLRPReaderClient;
  TAG_QUEUE : list TagData;
  SEEN_TAGS : deque TagData;
  seen_epcs : gset string;
  stdout : list Line;
  llrp_calls : list LLRPCall;
}.

Definition set_READER (r : option LLRPReaderClient) (w : World) : World :=
  mkWorld r (TAG_QUEUE w) (SEEN_TAGS w) (seen_epcs w) (stdout w) (llrp_calls w).
Definition set_TAG_QUEUE (q : list TagData) (w : World) : World :=
  mkWorld (READER w) q (SEEN_TAGS w) (seen_epcs w) (stdout w) (llrp_calls w).
Definition set_SEEN_TAGS (d : deque TagData) (w : World) : World :=
  mkWorld (READER w) (TAG_QUEUE w) d (seen_epcs w) (stdout w) (llrp_calls w).
Definition set_seen_epcs (s : gset string) (w : World) : World :=
  mkWorld (READER w) (TAG_QUEUE w) (SEEN_TAGS w) s (stdout w) (llrp_calls w).
Definition print (l : Line) (w : World) : World :=
  mkWorld (READER w) (TAG_QUEUE w) (SEEN_TAGS w) (seen_epcs w)
          (stdout w ++ [l]) (llrp_calls w).
Definition log_call (c : LLRPCall) (w : World) : World :=
  mkWorld (READER w) (TAG_QUEUE w) (SEEN_TAGS w) (seen_epcs w)
          (stdout w) (llrp_calls w ++ [c]).

(** The globals as the module initialises them, and [seen_epcs] as the worker
    initialises it. *)
Definition SEEN_TAGS_maxlen : nat := 100.

Definition init_world : World :=
  mkWorld None [] (deque_new SEEN_TAGS_maxlen) ∅ [] [].

(** ** The driver callback: [tag_report_cb] *)

(** The body of the [try]: build [tag_data] from one raw report. *)
Definition parse_tag (tag : gmap string PyVal) : PyExn + TagData :=
  match py_getitem tag "EPC" with
  | inl e => inl e
  | inr v =>
      match py_decode_ascii v with
      | inl e => inl e
      | inr s =>
          inr (mkTagData s (py_get tag "ChannelIndex")
                           (py_get tag "LastSeenTimestampUTC")
                           (py_get tag "TagSeenCount"))
      end
  end.

(** One iteration of the [for] loop: [TAG_QUEUE.put] on success, a warning
    on any exception. *)
Definition tag_report_one (w : World) (tag : gmap string PyVal) : World :=
  match parse_tag tag with
  | inr td => set_TAG_QUEUE (TAG_QUEUE w ++ [td]) w
  | inl e => print (out_error_parsing_tag e) w
  end.

Definition tag_report_cb (tag_reports : list (gmap string PyVal)) (w : World) : World :=
  foldl tag_report_one w tag_reports.

(** ** Command functions that do not touch the driver *)

Definition clear_tag_data (w : World) : World :=
  print out_tag_data_cleared (set_SEEN_TAGS (deque_clear (SEEN_TAGS w)) w).

(** ** The display worker: [process_tags_console] *)

Inductive Offer : Type := accepted | duplicate.

#[global] Instance Offer_eq_dec : EqDecision Offer.
Proof. solve_decision. Defined.

(** The body of the [try] once a tag has been taken from the queue. *)
Definition offer (tag : TagData) (w : World) : Offer * World :=
  if decide (epc tag ∉ seen_epcs w) then
    let w1 := set_seen_epcs (seen_epcs w ∪ {[epc tag]}) w in
    let w2 := set_SEEN_TAGS (deque_append (SEEN_TAGS w1) tag) w1 in
    let w3 := print out_new_tag w2 in
    (accepted,
     print (out_tag_details (epc tag) (channel tag) (seen_count tag) (last_seen tag)) w3)
  else (duplicate, w).

(** One iteration of the [while True] loop: [TAG_QUEUE.get] either yields the
    head of the queue or times out with [Empty], in which case the loop
    continues. *)
Definition process_tags_iter (w : World) : World :=
  match TAG_QUEUE w with
  | [] => w
  | tag :: q => snd (offer tag (set_TAG_QUEUE q w))
  end.

(** *** Sequences of [offer] and [clear] calls

    A call sequence is run from left to right; the trace records what each
    [offer] answered. *)

Inductive Op : Type :=
  | op_offer (tag : TagData)
  | op_clear.

Inductive Event : Type :=
  | ev_offer (tag : TagData) (r : Offer)
  | ev_clear.

#[global] Instance Event_eq_dec : EqDecision Event.
Proof. solve_decision. Defined.

Fixpoint run (ops : list Op) (w : World) : list Event * World :=
  match ops with
  | [] => ([], w)
  | op_offer tag :: ops' =>
      let '(r, w1) := offer tag w in
      let '(evs, w2) := run ops' w1 in
      (ev_offer tag r :: evs, w2)
  | op_clear :: ops' =>
      let '(evs, w2) := run ops' (clear_tag_data w) in
      (ev_clear :: evs, w2)
  end.

(** The records of the accepted offers that follow the last clear of a trace
    (or all of them when the trace has no clear), in the order of acceptance. *)
Definition note_event (acc : list TagData) (ev : Event) : list TagData :=
  match ev with
  | ev_clear => []
  | ev_offer tag accepted => acc ++ [tag]
  | ev_offer _ duplicate => acc
  end.

Definition accepted_since_clear (evs : list Event) : list TagData :=
  foldl note_event [] evs.

(** ** Operator input: [input(">> ").strip().lower()]

    A line is a string of 8-bit characters read as Latin-1 code points. *)

Definition py_isspace (c : ascii) : bool :=
  let n := nat_of_ascii c in
  bool_decide (9 ≤ n ≤ 13) || bool_decide (28 ≤ n ≤ 32)
  || bool_decide (n = 133) || bool_decide (n = 160).

Fixpoint py_lstrip (s : string) : string :=
  match s with
  | EmptyString => EmptyString
  | String c s' => if py_isspace c then py_lstrip s' else s
  end.

Fixpoint py_rstrip (s : string) : string :=
  match s with
  | EmptyString => EmptyString
  | String c s' =>
      match py_rstrip s' with
      | EmptyString => if py_isspace c then EmptyString else String c EmptyString
      | r => String c r
      end
  end.

Definition py_strip (s : string) : string := py_rstrip (py_lstrip s).

Definition py_lower_char (c : ascii) : ascii :=
  let n := nat_of_ascii c in
  if bool_decide (65 ≤ n ≤ 90) || (bool_decide (192 ≤ n ≤ 222) && negb (bool_decide (n = 215)))
  then ascii_of_nat (n + 32)
  else c.

Fixpoint py_lower (s : string) : string :=
  match s with
  | EmptyString => EmptyString
  | String c s' => String (py_lower_char c) (py_lower s')
  end.

(** ** Command functions that call the driver *)

Inductive Result : Type :=
  | Ok (w : World)
  | Raised (e : PyExn) (w : World).

Definition bind (r : Result) (k : World → Result) : Result :=
  match r with
  | Ok w => k w
  | Raised e w => Raised e w
  end.

Notation "r >>> k" := (bind r k) (at level 60, right associativity).

(** [READER and READER.is_alive()] *)
Definition reader_alive (w : World) : bool :=
  match READER w with
  | Some r => is_alive r
  | None => false
  end.

Section Driver.

(** What the reader does on a call: it either returns, leaving the handle
    in a new state, or it raises. *)
Variable llrp : LLRPCall → LLRPReaderClient → PyExn + LLRPReaderClient.

Definition call_llrp (c : LLRPCall) (w : World) : Result :=
  match READER w with
  | None => Raised (AttributeError "llrp") w
  | Some r =>
      match llrp c r with
      | inr r' => Ok (set_READER (Some r') (log_call c w))
      | inl e => Raised e (log_call c w)
      end
  end.

Definition start_reading (w : World) : Result :=
  if reader_alive w then
    call_llrp startInventory (clear_tag_data w) >>> λ w1,
    Ok (print out_started_inventory w1)
  else Ok w.

Definition stop_reading (w : World) : Result :=
  if reader_alive w then
    call_llrp stopPolitely w >>> λ w1,
    Ok (print out_stopped_inventory w1)
  else Ok w.

Definition print_reader_state (w : World) : Result :=
  match READER w with
  | Some r =>
      if is_alive r then Ok (print (out_reader_state (llrp_state r)) w)
      else Ok (print out_reader_not_connected w)
  | None => Ok (print out_reader_not_connected w)
  end.

(** The prompt loop. [inputs] are the lines the operator will type; when
    they run out [input] raises [EOFError]. [Ok] is the [break]. *)
Fixpoint user_interface (inputs : list string) (w : World) : Result :=
  let w0 := print out_prompt (print out_commands w) in
  match inputs with
  | [] => Raised EOFError w0
  | line :: rest =>
      let cmd := py_lower (py_strip line) in
      if decide (cmd = "start") then start_reading w0 >>> user_interface rest
      else if decide (cmd = "stop") then stop_reading w0 >>> user_interface rest
      else if decide (cmd = "clear") then user_interface rest (clear_tag_data w0)
      else if decide (cmd = "state") then print_reader_state w0 >>> user_interface rest
      else if decide (cmd = "exit") then stop_reading w0
      else user_interface rest (print out_unknown_command w0)
  end.

(** The end of [main], after [user_interface] has returned. *)
Definition shutdown (w : World) : Result :=
  if reader_alive w then
    call_llrp stopPolitely w >>> λ w1,
    call_llrp disconnect w1 >>> λ w2,
    Ok (print out_reader_disconnected w2)
  else Ok w.

Definition main_loop (inputs : list string) (w : World) : Result :=
  user_interface inputs w >>> shutdown.

End Driver.

(** ** Interleavings of the worker, the operator thread and the callback

    The worker runs [process_tags_console]; its program counter says which
    statement of the loop body comes next. The operator thread may run
    [clear_tag_data] and the driver thread may put a record on the queue
    between any two statements of the worker: the program takes no lock. *)

Inductive WorkerPC : Type :=
  | at_get
  | at_add (tag : TagData)
  | at_append (tag : TagData)
  | at_print (tag : TagData).

Inductive step : World * WorkerPC → World * WorkerPC → Prop :=
  | step_get_new w tag q :
      TAG_QUEUE w = tag :: q →
      epc tag ∉ seen_epcs w →
      step (w, at_get) (set_TAG_QUEUE q w, at_add tag)
  | step_get_seen w tag q :
      TAG_QUEUE w = tag :: q →
      epc tag ∈ seen_epcs w →
      step (w, at_get) (set_TAG_QUEUE q w, at_get)
  | step_add w tag :
      step (w, at_add tag)
           (set_seen_epcs (seen_epcs w ∪ {[epc tag]}) w, at_append tag)
  | step_append w tag :
      step (w, at_append tag)
           (set_SEEN_TAGS (deque_append (SEEN_TAGS w) tag) w, at_print tag)
  | step_print w tag :
      step (w, at_print tag)
           (print (out_tag_details (epc tag) (channel tag) (seen_count tag) (last_seen tag))
                  (print out_new_tag w), at_get)
  | step_clear w pc :
      step (w, pc) (clear_tag_data w, pc)
  | step_put w pc tag :
      step (w, pc) (set_TAG_QUEUE (TAG_QUEUE w ++ [tag]) w, pc).

Definition reachable (c : World * WorkerPC) : Prop := rtc step (init_world, at_get) c.

(** ** Fixtures for the scenarios *)

Definition tag_A (n : Z) : TagData := mkTagData "A" PyNone PyNone (PyInt n).

Definition tag_of_epc (e : string) : TagData := mkTagData e PyNone PyNone PyNone.

(** [tally n] is [n] strokes: pairwise distinct EPCs. *)
Fixpoint tally (n : nat) : string :=
  match n with
  | O => EmptyString
  | S n' => String "I" (tally n')
  end.

Definition tally_tags (lo len : nat) : list TagData :=
  (λ n, tag_of_epc (tally n)) <$> seq lo len.

Definition small_world : World :=
  mkWorld None [] (deque_new 2) ∅ [] [].

(** Which raw reports are malformed and which are well formed. *)
Definition epc_missing (tag : gmap string PyVal) : Prop :=
  tag !! "EPC" = None.

Definition epc_undecodable (tag : gmap string PyVal) : Prop :=
  ∃ v, tag !! "EPC" = Some v
       ∧ ∀ bs, v = PyBytes bs → Exists (λ b, (128 ≤ Byte.to_N b)%N) bs.

Definition epc_decodable (tag : gmap string PyVal) (bs : list Byte.byte) : Prop :=
  tag !! "EPC" = Some (PyBytes bs) ∧ Forall (λ b, (Byte.to_N b < 128)%N) bs.

(** The record a well-formed report is turned into. *)
Definition record_of (tag : gmap string PyVal) (bs : list Byte.byte) : TagData :=
  mkTagData (string_of_list_ascii (map ascii_of_byte bs))
            (default PyNone (tag !! "ChannelIndex"))
            (default PyNone (tag !! "LastSeenTimestampUTC"))
            (default PyNone (tag !! "TagSeenCount")).

(** Every record in the buffer has its EPC in the set, and so has the record
    the worker is about to append or has just appended. *)
Definition buffer_within_set (c : World * WorkerPC) : Prop :=
  (∀ t, t ∈ items (SEEN_TAGS (fst c)) → epc t ∈ seen_epcs (fst c))
  ∧ match snd c with
    | at_append t | at_print t => epc t ∈ seen_epcs (fst c)
    | at_get | at_add _ => True
    end.

(** Two readers: one that obeys every call and stays alive, one whose every
    call raises. *)
Definition live_reader : LLRPReaderClient := mkReader true 3.

Definition obedient_llrp (c : LLRPCall) (r : LLRPReaderClient)
  : PyExn + LLRPReaderClient := inr r.

Definition failing_llrp (c : LLRPCall) (r : LLRPReaderClient)
  : PyExn + LLRPReaderClient := inl (LLRPError "connection lost").

Definition connected_world : World := set_READER (Some live_reader) init_world.

(** A connected world in which the record of "A" has been accepted. *)
Definition busy_world : World := snd (offer (tag_A 1) connected_world).

Definition is_command (cmd : string) : Prop :=
  cmd = "start" ∨ cmd = "stop" ∨ cmd = "clear" ∨ cmd = "state" ∨ cmd = "exit".

Definition prompted (w : World) : World := print out_prompt (print out_commands w).

(** A report with nothing but an ASCII EPC, one without an EPC, and one whose
    EPC has a byte above 0x7f. *)
Definition bare_report : gmap string PyVal := {[ "EPC" := PyBytes [Byte.x41] ]}.

Definition report_without_epc : gmap string PyVal := {[ "ChannelIndex" := PyInt 1 ]}.

Definition report_with_high_byte : gmap string PyVal :=
  {[ "EPC" := PyBytes [Byte.x41; Byte.xe9] ]}.

Definition dead_world : World := set_READER (Some (mkReader false 0)) init_world.

(** The records of all the accepted offers of a trace, clears ignored. *)
Definition accepted_ever (evs : list Event) : list TagData :=
  omap (λ ev, match ev with
              | ev_offer tag accepted => Some tag
              | _ => None
              end) evs.

(** ** More of the program

    The [while True] loop of the worker, run for [n] iterations, and the
    worker from its start: [seen_epcs = set()] and then the loop. *)
Fixpoint process_tags_loop (n : nat) (w : World) : World :=
  match n with
  | O => w
  | S n' => process_tags_loop n' (process_tags_iter w)
  end.

Definition process_tags_console (n : nat) (w : World) : World :=
  process_tags_loop n (set_seen_epcs ∅ w).

(** What a call prints. *)
Definition lines_of_event (ev : Event) : list Line :=
  match ev with
  | ev_clear => [out_tag_data_cleared]
  | ev_offer tag accepted =>
      [out_new_tag;
       out_tag_details (epc tag) (channel tag) (seen_count tag) (last_seen tag)]
  | ev_offer _ duplicate => []
  end.

(** What the callback does with one report: the record it enqueues or the
    warning it prints. *)
Definition enqueued_of (tag : gmap string PyVal) : option TagData :=
  match parse_tag tag with
  | inr td => Some td
  | inl _ => None
  end.

Definition warning_of (tag : gmap string PyVal) : option Line :=
  match parse_tag tag with
  | inr _ => None
  | inl e => Some (out_error_parsing_tag e)
  end.

(** The state a command leaves behind, whether it returned or raised. *)
Definition result_world (r : Result) : World :=
  match r with
  | Ok w => w
  | Raised _ w => w
  end.

(** The command a line stands for. *)
Definition command_of (line : string) : string := py_lower (py_strip line).

Fixpoint py_all_space (s : string) : bool :=
  match s with
  | EmptyString => true
  | String c s' => py_isspace c && py_all_space s'
  end.

(** *** The start of [main]

    [main] reads the reader address, connects, and sets the transmit power
    of the configured antenna before it starts the worker and the prompt
    loop. The console lines of this part are [StartupLine]s. *)

Inductive StartupLine : Type :=
  | out_no_ip
  | out_initializing
  | out_set_tx_power (antenna max_power : Z)
  | out_no_power_levels (antenna : Z)
  | out_no_transmit_power_levels
  | out_failed_tx_power (e : PyExn)
  | out_ready.

(** [config.antennas = [2]] *)
Definition config_antennas : list Z := [2%Z].

(** [max(l)] on a list of integers; [ValueError] on an empty list is never
    reached where [main] calls it, so the empty case is [None]. *)
Definition py_max (l : list Z) : option Z :=
  match l with
  | [] => None
  | x :: l' => Some (foldl Z.max x l')
  end.

(** The [try] block of [main]. [caps] is what reading
    [READER.llrp.capabilities] gives: an exception, or the dict, of which
    only the entry ["TransmitPowerLevels"] is read ([None] when the key is
    absent), itself a dict from antenna to the list of its power levels.
    [setTxPower antenna power] is the driver call, which may raise. The
    result is the list of [setTxPower] calls made and the line printed.
    [config.antennas[0]] cannot fail, the list being the constant above; the
    branch for the empty list only makes the match complete. *)
Definition configure_tx_power
    (caps : PyExn + option (gmap Z (list Z)))
    (setTxPower : Z → Z → option PyExn) : list (Z * Z) * StartupLine :=
  match caps with
  | inl e => ([], out_failed_tx_power e)
  | inr levels =>
      let antenna_caps := default ∅ levels in
      if decide (antenna_caps = ∅) then ([], out_no_transmit_power_levels)
      else
        match config_antennas with
        | [] => ([], out_failed_tx_power (KeyError "antennas[0]"))
        | antenna :: _ =>
            let power_levels := default [] (antenna_caps !! antenna) in
            match py_max power_levels with
            | None => ([], out_no_power_levels antenna)
            | Some max_power =>
                match setTxPower antenna max_power with
                | Some e => ([(antenna, max_power)], out_failed_tx_power e)
                | None => ([(antenna, max_power)], out_set_tx_power antenna max_power)
                end
            end
        end
  end.

Record MainRun : Type := mkMainRun {
  startup_out : list StartupLine;
  tx_power_calls : list (Z * Z);
  connected_to : option string;
  outcome : Result;
}.

(** [main] on the lines the operator types. [new_client ip] is the handle
    that [LLRPReaderClient(reader_ip, PORT, config)] gives, which [main]
    stores in the global [READER] before anything else; [connect r] stands
    for registering the callbacks and [READER.connect()] on that handle: it
    returns, leaving the handle in a new state, or it raises, leaving the
    handle in some state too. The worker thread that [main] starts is not
    run here; it acts on the queue, the set and the buffer only. *)
Definition main
    (new_client : string → LLRPReaderClient)
    (connect : LLRPReaderClient → PyExn * LLRPReaderClient + LLRPReaderClient)
    (caps : PyExn + option (gmap Z (list Z)))
    (setTxPower : Z → Z → option PyExn)
    (llrp : LLRPCall → LLRPReaderClient → PyExn + LLRPReaderClient)
    (inputs : list string) (w : World) : MainRun :=
  match inputs with
  | [] => mkMainRun [] [] None (Raised EOFError w)
  | line :: rest =>
      let reader_ip := py_strip line in
      if decide (reader_ip = "") then mkMainRun [out_no_ip] [] None (Ok w)
      else
        let w1 := set_READER (Some (new_client reader_ip)) w in
        match connect (new_client reader_ip) with
        | inl (e, r) =>
            mkMainRun [out_initializing] [] (Some reader_ip)
                      (Raised e (set_READER (Some r) w1))
        | inr r =>
            let '(calls, l) := configure_tx_power caps setTxPower in
            mkMainRun [out_initializing; l; out_ready] calls (Some reader_ip)
                      (main_loop llrp rest (set_READER (Some r) w1))
        end
  end.

(** What the interleavings keep: the buffer holds no EPC twice, every EPC in
    it is in the set, it is within its capacity of 100, and the record in
    the worker's hands is new until added and not yet in the buffer until
    appended. *)
Definition worker_invariant (c : World * WorkerPC) : Prop :=
  NoDup (epc <$> items (SEEN_TAGS (fst c)))
  ∧ (∀ e, e ∈ epc <$> items (SEEN_TAGS (fst c)) → e ∈ seen_epcs (fst c))
  ∧ maxlen (SEEN_TAGS (fst c)) = 100
  ∧ length (items (SEEN_TAGS (fst c))) ≤ 100
  ∧ match snd c with
    | at_get => True
    | at_add t => epc t ∉ seen_epcs (fst c)
    | at_append t =>
        epc t ∈ seen_epcs (fst c) ∧ epc t ∉ epc <$> items (SEEN_TAGS (fst c))
    | at_print t => epc t ∈ seen_epcs (fst c)
    end.

(** A reader on which [startInventory] raises and every other call
    returns, and one on which [stopPolitely] alone raises. *)
Definition start_only_failing_llrp (c : LLRPCall) (r : LLRPReaderClient)
  : PyExn + LLRPReaderClient :=
  match c with
  | startInventory => inl (LLRPError "inventory refused")
  | _ => inr r
  end.

Definition stop_only_failing_llrp (c : LLRPCall) (r : LLRPReaderClient)
  : PyExn + LLRPReaderClient :=
  match c with
  | stopPolitely => inl (LLRPError "stop refused")
  | _ => inr r
  end.

(** The handle as constructed, before it is connected. *)
Definition fresh_client (ip : string) : LLRPReaderClient := mkReader false 0.

(** [w'] has the set of the worker and the queue of [w]. *)
Definition untouched (w w' : World) : Prop :=
  seen_epcs w' = seen_epcs w ∧ TAG_QUEUE w' = TAG_QUEUE w.

(** * Properties *)

(** ** The deque *)

Section deque_facts.
Context {A : Type}.
Implicit Types (d : deque A) (x : A) (l : list A).

Lemma maxlen_deque_append d x : maxlen (deque_append d x) = maxlen d.
Proof. reflexivity. Qed.

Lemma items_deque_append_fits d x :
  length (items d) < maxlen d → items (deque_append d x) = items d ++ [x].
Proof.
  intros Hlt. unfold deque_append. simpl.
  rewrite decide_False; [done|]. rewrite length_app. simpl. lia.
Qed.

Lemma items_deque_append_full d x :
  maxlen d ≤ length (items d) →
  items (deque_append d x) = drop 1 (items d ++ [x]).
Proof.
  intros Hle. unfold deque_append. simpl.
  rewrite decide_True; [done|]. rewrite length_app. simpl. lia.
Qed.

Lemma elem_of_deque_append d x y :
  y ∈ items (deque_append d x) → y ∈ items d ∨ y = x.
Proof.
  unfold deque_append. simpl. intros Hy.
  assert (y ∈ items d ++ [x]) as Hin.
  { case_decide; [|done]. eapply (subseteq_drop 1). exact Hy. }
  apply elem_of_app in Hin as [?|Hx]; [by left|].
  right. by apply list_elem_of_singleton in Hx.
Qed.

(** The deque is a window on what has been appended: if it holds the last
    [maxlen] elements of [l], then after an append it holds the last
    [maxlen] elements of [l ++ [x]]. *)
Lemma deque_append_window d l x :
  items d = drop (length l - maxlen d) l →
  items (deque_append d x)
  = drop (length (l ++ [x]) - maxlen d) (l ++ [x]).
Proof.
  intros Hd. rewrite length_app. change (length [x]) with 1.
  destruct (decide (length l < maxlen d)) as [Hlt|Hge].
  - assert (items d = l) as Hl.
    { rewrite Hd. replace (length l - maxlen d) with 0 by lia. done. }
    rewrite items_deque_append_fits; [|rewrite Hl; lia].
    replace (length l + 1 - maxlen d) with 0 by lia. by rewrite Hl.
  - rewrite items_deque_append_full.
    2:{ rewrite Hd, length_drop. lia. }
    rewrite Hd.
    destruct (decide (maxlen d = 0)) as [Hz|Hnz].
    + rewrite Hz. replace (length l - 0) with (length l) by lia.
      rewrite drop_all. simpl.
      rewrite drop_ge; [done|]. rewrite length_app. simpl. lia.
    + rewrite <- drop_app_le by lia. rewrite drop_drop.
      f_equal. lia.
Qed.

Lemma window_of_fitting d :
  length (items d) ≤ maxlen d →
  items d = drop (length (items d) - maxlen d) (items d).
Proof. intros Hle. replace (length (items d) - maxlen d) with 0 by lia. done. Qed.

End deque_facts.

(** ** [offer], [clear_tag_data] and call sequences *)

Lemma offer_new tag w :
  epc tag ∉ seen_epcs w →
  offer tag w =
    (accepted,
     print (out_tag_details (epc tag) (channel tag) (seen_count tag) (last_seen tag))
       (print out_new_tag
          (set_SEEN_TAGS (deque_append (SEEN_TAGS w) tag)
             (set_seen_epcs (seen_epcs w ∪ {[epc tag]}) w)))).
Proof. intros Hn. unfold offer. by rewrite decide_True. Qed.

Lemma offer_seen tag w :
  epc tag ∈ seen_epcs w → offer tag w = (duplicate, w).
Proof.
  intros Hin. unfold offer. rewrite decide_False; [done|]. by intros Hn.
Qed.

Lemma offer_cases tag w :
  ((epc tag ∉ seen_epcs w) ∧ fst (offer tag w) = accepted
   ∧ seen_epcs (snd (offer tag w)) = seen_epcs w ∪ {[epc tag]}
   ∧ SEEN_TAGS (snd (offer tag w)) = deque_append (SEEN_TAGS w) tag)
  ∨ (epc tag ∈ seen_epcs w ∧ offer tag w = (duplicate, w)).
Proof.
  destruct (decide (epc tag ∈ seen_epcs w)) as [Hin|Hn].
  - right. split; [done|]. by apply offer_seen.
  - left. rewrite (offer_new _ _ Hn). done.
Qed.

Lemma run_offer tag ops w :
  run (op_offer tag :: ops) w =
    (ev_offer tag (fst (offer tag w)) :: (fst (run ops (snd (offer tag w)))),
     (snd (run ops (snd (offer tag w))))).
Proof.
  simpl. destruct (offer tag w) as [r w1]. simpl.
  by destruct (run ops w1) as [evs w2].
Qed.

Lemma run_clear ops w :
  run (op_clear :: ops) w =
    (ev_clear :: (fst (run ops (clear_tag_data w))), (snd (run ops (clear_tag_data w)))).
Proof. simpl. by destruct (run ops (clear_tag_data w)) as [evs w2]. Qed.

(** No call ever takes an EPC out of [seen_epcs]. *)
Lemma run_seen_mono ops w : seen_epcs w ⊆ seen_epcs (snd (run ops w)).
Proof.
  revert w. induction ops as [|[tag|] ops IH]; intros w; [done| |].
  - rewrite run_offer. simpl. etrans; [|apply IH].
    destruct (offer_cases tag w) as [(_ & _ & -> & _)|[_ ->]]; set_solver.
  - rewrite run_clear. simpl. etrans; [|apply IH]. done.
Qed.

Lemma run_maxlen ops w :
  maxlen (SEEN_TAGS (snd (run ops w))) = maxlen (SEEN_TAGS w).
Proof.
  revert w. induction ops as [|[tag|] ops IH]; intros w; [done| |].
  - rewrite run_offer. simpl. rewrite IH.
    by destruct (offer_cases tag w) as [(_ & _ & _ & ->)|[_ ->]].
  - rewrite run_clear. simpl. by rewrite IH.
Qed.

(** The buffer is a window, [maxlen] wide, on the records accepted since the
    last clear. *)
Lemma run_window ops w acc :
  items (SEEN_TAGS w) = drop (length acc - maxlen (SEEN_TAGS w)) acc →
  let acc' := foldl note_event acc (fst (run ops w)) in
  items (SEEN_TAGS (snd (run ops w)))
  = drop (length acc' - maxlen (SEEN_TAGS w)) acc'.
Proof.
  revert w acc. induction ops as [|[tag|] ops IH]; intros w acc Hw; [done| |].
  - rewrite run_offer. simpl.
    destruct (offer_cases tag w) as [(_ & Hr & _ & Hd)|[_ Heq]].
    + rewrite Hr. simpl.
      assert (maxlen (SEEN_TAGS w) = maxlen (SEEN_TAGS (snd (offer tag w)))) as Hm
        by by rewrite Hd.
      rewrite Hm. apply IH. rewrite <- Hm, Hd.
      rewrite <- (maxlen_deque_append (SEEN_TAGS w) tag) at 1.
      rewrite maxlen_deque_append. by apply deque_append_window.
    + rewrite Heq. simpl. by apply IH.
  - rewrite run_clear. simpl.
    apply (IH (clear_tag_data w) []). done.
Qed.

Lemma note_accepted acc ts :
  foldl note_event acc ((λ t, ev_offer t accepted) <$> ts) = acc ++ ts.
Proof.
  revert acc. induction ts as [|t ts IH]; intros acc; simpl.
  - by rewrite app_nil_r.
  - rewrite IH. by rewrite <- app_assoc.
Qed.

(** Distinct EPCs that have not been seen are all accepted. *)
Lemma run_fresh_offers ts w :
  NoDup (epc <$> ts) →
  (∀ t, t ∈ ts → epc t ∉ seen_epcs w) →
  fst (run (op_offer <$> ts) w) = (λ t, ev_offer t accepted) <$> ts.
Proof.
  revert w. induction ts as [|t ts IH]; intros w Hnd Hfresh; [done|].
  rewrite fmap_cons in Hnd. apply NoDup_cons in Hnd as [Ht Hnd].
  rewrite fmap_cons, run_offer. simpl.
  assert (epc t ∉ seen_epcs w) as Hn by (apply Hfresh; left).
  rewrite (offer_new _ _ Hn). simpl. f_equal.
  apply IH; [done|]. intros t1 Ht1. simpl.
  apply not_elem_of_union. split.
  - apply Hfresh. by right.
  - apply not_elem_of_singleton. intros Heq. apply Ht.
    rewrite <- Heq. apply list_elem_of_fmap. by exists t1.
Qed.

(** ** C1: the clear scenario *)

(** C1 (observed behaviour). In the sequence offer(EPC="A", seen=1),
    offer(EPC="A", seen=2), clear(), offer(EPC="A", seen=3) run from the
    initial state, the program answers accepted, duplicate and then duplicate
    again: [clear_tag_data] empties [SEEN_TAGS] only, "A" stays in
    [seen_epcs], and the buffer ends empty instead of holding the seen=3
    record. *)
Theorem clear_scenario_third_offer_duplicate :
  let r := run [op_offer (tag_A 1); op_offer (tag_A 2); op_clear; op_offer (tag_A 3)]
               init_world in
  fst r = [ev_offer (tag_A 1) accepted; ev_offer (tag_A 2) duplicate; ev_clear;
           ev_offer (tag_A 3) duplicate]
  ∧ items (SEEN_TAGS (snd r)) = []
  ∧ "A" ∈ seen_epcs (snd r).
Proof.
  split; [by vm_compute|]. split; [by vm_compute|].
  apply (bool_decide_unpack _). by vm_compute.
Qed.

(** ** C2: the set against the buffer *)

(** C2 (observed behaviour). After offer(EPC="A") and clear() run from the
    initial state, "A" is in [seen_epcs] although no record has been appended
    to the buffer since that clear: the set records what was appended since
    the worker started, not since the last clear. *)
Theorem seen_epcs_survives_clear :
  let r := run [op_offer (tag_A 1); op_clear] init_world in
  "A" ∈ seen_epcs (snd r)
  ∧ ("A" ∉ epc <$> accepted_since_clear (fst r))
  ∧ items (SEEN_TAGS (snd r)) = [].
Proof.
  split; [apply (bool_decide_unpack _); by vm_compute|].
  split; [|by vm_compute].
  apply (bool_decide_unpack _). by vm_compute.
Qed.

(** X2. What the set does track: an EPC is in it exactly when it was in it
    at the start or a record with that EPC has been accepted since, clears
    or not. *)
Lemma seen_epcs_tracks_accepted_ever ops w e :
  e ∈ seen_epcs (snd (run ops w))
  ↔ e ∈ seen_epcs w ∨ e ∈ epc <$> accepted_ever (fst (run ops w)).
Proof.
  revert w. induction ops as [|[tag|] ops IH]; intros w.
  - simpl. split; [by left|]. intros [?|Hin]; [done|].
    by apply elem_of_nil in Hin.
  - rewrite run_offer. simpl. rewrite IH. unfold accepted_ever. simpl.
    destruct (offer_cases tag w) as [(_ & -> & -> & _)|[Hin ->]]; simpl.
    + rewrite elem_of_union, elem_of_singleton, elem_of_cons. tauto.
    + tauto.
  - rewrite run_clear. simpl. by rewrite IH.
Qed.

(** ** C5: capacity and eviction order *)

(** C5. After every sequence of offer and clear calls run from the initial
    state, the buffer holds min(100, number of offers accepted since the last
    clear) records, hence at most 100; it holds exactly the most recently
    accepted ones in acceptance order; and an accepted offer made on a full
    buffer drops the oldest record and adds the new one at the end. *)
Theorem buffer_capacity_and_fifo_eviction (ops : list Op) (tag : TagData) :
  let w := snd (run ops init_world) in
  let acc := accepted_since_clear (fst (run ops init_world)) in
  length (items (SEEN_TAGS w)) = length acc `min` 100
  ∧ length (items (SEEN_TAGS w)) ≤ 100
  ∧ items (SEEN_TAGS w) = drop (length acc - 100) acc
  ∧ (epc tag ∉ seen_epcs w →
     length (items (SEEN_TAGS w)) = 100 →
     fst (offer tag w) = accepted
     ∧ ∃ oldest kept,
         items (SEEN_TAGS w) = oldest :: kept
         ∧ items (SEEN_TAGS (snd (offer tag w))) = kept ++ [tag]).
Proof.
  intros w acc.
  assert (items (SEEN_TAGS w) = drop (length acc - 100) acc) as Hwin.
  { apply (run_window ops init_world []). done. }
  assert (length (items (SEEN_TAGS w)) = length acc `min` 100) as Hlen.
  { rewrite Hwin, length_drop. lia. }
  split; [done|]. split; [lia|]. split; [done|].
  intros Hn Hfull.
  destruct (offer_cases tag w) as [(_ & Hr & _ & Hd)|[Hin _]]; [|done].
  split; [done|].
  assert (maxlen (SEEN_TAGS w) ≤ length (items (SEEN_TAGS w))) as Hm.
  { rewrite Hfull. unfold w. by rewrite run_maxlen. }
  rewrite Hd, items_deque_append_full by done.
  destruct (items (SEEN_TAGS w)) as [|oldest kept]; [done|].
  by exists oldest, kept.
Qed.

Lemma buffer_capacity_and_fifo_eviction_witness :
  let ops := op_offer <$> tally_tags 0 100 in
  let tag := tag_of_epc (tally 100) in
  let w := snd (run ops init_world) in
  fst (offer tag w) = accepted
  ∧ ∃ oldest kept,
      items (SEEN_TAGS w) = oldest :: kept
      ∧ items (SEEN_TAGS (snd (offer tag w))) = kept ++ [tag].
Proof.
  intros ops tag w.
  apply (buffer_capacity_and_fifo_eviction ops tag).
  - apply (bool_decide_unpack _). by vm_compute.
  - by vm_compute.
Defined.

(** ** C6: eviction does not forget *)

(** X18. Take a buffer of capacity C within its capacity and offer more than
    C records with distinct EPCs that have not been seen. All are accepted
    and the record of the first one is no longer in the buffer, yet its EPC
    is still in [seen_epcs]: whatever further offers follow (evicting or
    not), a later offer of that EPC is answered duplicate. Eviction never
    makes an EPC eligible again. *)
Theorem eviction_keeps_epc_seen
    (w : World) (t0 : TagData) (rest more : list TagData) (t' : TagData) :
  length (items (SEEN_TAGS w)) ≤ maxlen (SEEN_TAGS w) →
  NoDup (epc <$> t0 :: rest) →
  (∀ t, t ∈ t0 :: rest → epc t ∉ seen_epcs w) →
  maxlen (SEEN_TAGS w) ≤ length rest →
  epc t' = epc t0 →
  let r1 := run (op_offer <$> t0 :: rest) w in
  let r2 := run (op_offer <$> more) (snd r1) in
  fst r1 = (λ t, ev_offer t accepted) <$> t0 :: rest
  ∧ (t0 ∉ items (SEEN_TAGS (snd r1)))
  ∧ (epc t0 ∉ epc <$> items (SEEN_TAGS (snd r1)))
  ∧ epc t0 ∈ seen_epcs (snd r1)
  ∧ fst (offer t' (snd r2)) = duplicate.
Proof.
  intros Hwf Hnd Hfresh Hcap Hepc r1 r2.
  assert (fst r1 = (λ t, ev_offer t accepted) <$> t0 :: rest) as Hacc
    by by apply run_fresh_offers.
  assert (epc t0 ∉ epc <$> items (SEEN_TAGS (snd r1))) as Hgone.
  { unfold r1.
    rewrite (run_window _ w (items (SEEN_TAGS w))) by by apply window_of_fitting.
    fold r1. rewrite Hacc, note_accepted.
    rewrite length_app, length_cons.
    rewrite drop_app_ge by lia.
    replace (length (items (SEEN_TAGS w)) + S (length rest) - maxlen (SEEN_TAGS w)
             - length (items (SEEN_TAGS w)))
      with (S (length rest - maxlen (SEEN_TAGS w))) by lia.
    simpl. rewrite fmap_cons in Hnd. apply NoDup_cons in Hnd as [Ht0 _].
    intros Hin. apply Ht0.
    apply list_elem_of_fmap in Hin as (t1 & Heq & Ht1).
    apply list_elem_of_fmap. exists t1. split; [done|].
    eapply subseteq_drop. exact Ht1. }
  assert (epc t0 ∈ seen_epcs (snd r1)) as Hseen.
  { unfold r1. rewrite fmap_cons, run_offer. simpl.
    apply run_seen_mono.
    destruct (offer_cases t0 w) as [(_ & _ & -> & _)|[Hin ->]]; set_solver. }
  split; [done|]. split.
  { intros Hin. apply Hgone. apply list_elem_of_fmap. by exists t0. }
  split; [done|]. split; [done|].
  rewrite offer_seen; [done|].
  rewrite Hepc. by apply run_seen_mono.
Qed.

Lemma eviction_keeps_epc_seen_witness :
  let r1 := run (op_offer <$> [tag_of_epc "A"; tag_of_epc "B"; tag_of_epc "C"])
                small_world in
  let r2 := run (op_offer <$> [tag_of_epc "D"]) (snd r1) in
  fst r1 = (λ t, ev_offer t accepted) <$> [tag_of_epc "A"; tag_of_epc "B"; tag_of_epc "C"]
  ∧ (tag_of_epc "A" ∉ items (SEEN_TAGS (snd r1)))
  ∧ ("A" ∉ epc <$> items (SEEN_TAGS (snd r1)))
  ∧ "A" ∈ seen_epcs (snd r1)
  ∧ fst (offer (tag_A 7) (snd r2)) = duplicate.
Proof.
  apply (eviction_keeps_epc_seen small_world (tag_of_epc "A")
           [tag_of_epc "B"; tag_of_epc "C"] [tag_of_epc "D"] (tag_A 7)).
  - simpl. lia.
  - apply (bool_decide_unpack _). by vm_compute.
  - intros t Ht. simpl. apply not_elem_of_empty.
  - simpl. lia.
  - reflexivity.
Defined.

(** C6 (observed behaviour). With the capacity of 100, offer 101 records
    with distinct EPCs from the initial state: all are accepted, the buffer
    holds 100 records and the first record is no longer among them, and a
    new offer of its EPC is answered duplicate, as the claim says of
    eviction. Then clear: the buffer is empty, and an offer of that EPC is
    answered duplicate still. The clear does not make the EPC eligible
    again, because [clear_tag_data] leaves [seen_epcs] as it is. *)
Theorem evicted_epc_still_duplicate_after_clear :
  let first := tag_of_epc (tally 1) in
  let r1 := run (op_offer <$> tally_tags 1 101) init_world in
  let r2 := run [op_clear] (snd r1) in
  fst r1 = (λ t, ev_offer t accepted) <$> tally_tags 1 101
  ∧ length (items (SEEN_TAGS (snd r1))) = 100
  ∧ (epc first ∉ epc <$> items (SEEN_TAGS (snd r1)))
  ∧ fst (offer first (snd r1)) = duplicate
  ∧ items (SEEN_TAGS (snd r2)) = []
  ∧ fst (offer first (snd r2)) = duplicate.
Proof.
  split; [by vm_compute|]. split; [by vm_compute|].
  split; [apply (bool_decide_unpack _); by vm_compute|].
  split; [by vm_compute|]. split; by vm_compute.
Qed.

(** ** C7: interleavings of the worker and [clear_tag_data] *)

(** The worker's four statements, run back to back, are one iteration of the
    loop of [process_tags_console]. *)
Lemma worker_steps_iter w tag q :
  TAG_QUEUE w = tag :: q →
  rtc step (w, at_get) (process_tags_iter w, at_get).
Proof.
  intros Hq. unfold process_tags_iter. rewrite Hq.
  destruct (decide (epc tag ∈ seen_epcs w)) as [Hin|Hn].
  - rewrite offer_seen by done. simpl.
    apply rtc_once. by apply (step_get_seen w tag q).
  - rewrite offer_new by done. simpl.
    eapply rtc_l; [by apply (step_get_new w tag q)|].
    eapply rtc_l; [apply step_add|].
    eapply rtc_l; [apply step_append|].
    eapply rtc_l; [apply step_print|].
    apply rtc_refl.
Qed.

Lemma step_buffer_within_set c c' :
  step c c' → buffer_within_set c → buffer_within_set c'.
Proof.
  unfold buffer_within_set.
  destruct 1 as [w tag q Hq Hn|w tag q Hq Hin|w tag|w tag|w tag|w pc|w pc tag];
    simpl; intros [Hbuf Hpc].
  - done.
  - done.
  - split; [|set_solver]. intros t Ht. specialize (Hbuf t Ht). set_solver.
  - split; [|done]. intros t Ht.
    apply elem_of_deque_append in Ht as [Ht| ->]; auto.
  - done.
  - split; [|done]. intros t Ht. by apply elem_of_nil in Ht.
  - done.
Qed.

Lemma reachable_buffer_within_set c : reachable c → buffer_within_set c.
Proof.
  unfold reachable. revert c.
  apply (rtc_ind_r (R:=step) buffer_within_set (init_world, at_get)).
  - split; [|done]. intros t Ht. by apply elem_of_nil in Ht.
  - intros c1 c2 _ Hstep IH. by eapply step_buffer_within_set.
Qed.

(** C7 (amended). The program takes no lock, and [clear_tag_data] may run
    between any two statements of the worker. Under every interleaving of
    the worker's statements, clears and queue puts, every record in the
    buffer has its EPC in the set: no state is reachable in which an EPC is
    in the buffer but absent from the set. *)
Theorem buffer_epcs_always_in_set (w : World) (pc : WorkerPC) (t : TagData) :
  reachable (w, pc) →
  t ∈ items (SEEN_TAGS w) →
  epc t ∈ seen_epcs w.
Proof.
  intros Hr Ht. by apply (reachable_buffer_within_set _ Hr).
Qed.

Lemma reachable_after_offer_A :
  reachable (process_tags_iter (set_TAG_QUEUE [tag_A 1] init_world), at_get).
Proof.
  eapply rtc_l; [apply (step_put init_world at_get (tag_A 1))|].
  by apply (worker_steps_iter _ (tag_A 1) []).
Qed.

Lemma buffer_epcs_always_in_set_witness :
  epc (tag_A 1) ∈ seen_epcs (process_tags_iter (set_TAG_QUEUE [tag_A 1] init_world)).
Proof.
  apply (buffer_epcs_always_in_set _ at_get (tag_A 1)).
  - exact reachable_after_offer_A.
  - apply (bool_decide_unpack _). by vm_compute.
Defined.

(** C7 (as stated, refuted). A clear is a legal step while the worker sits
    between [seen_epcs.add] and [SEEN_TAGS.append]; and the state in which
    the worker is idle, "A" is in the set and the buffer is empty is
    reachable. *)
Lemma clear_not_atomic_with_offer :
  (∃ w tag, reachable (w, at_append tag)
            ∧ step (w, at_append tag) (clear_tag_data w, at_append tag))
  ∧ ∃ w, reachable (w, at_get)
         ∧ "A" ∈ seen_epcs w
         ∧ ("A" ∉ epc <$> items (SEEN_TAGS w)).
Proof.
  split.
  - eexists _, (tag_A 1). split; [|apply step_clear].
    eapply rtc_l; [apply (step_put init_world at_get (tag_A 1))|].
    eapply rtc_l; [by apply (step_get_new _ (tag_A 1) [])|].
    eapply rtc_l; [apply step_add|].
    apply rtc_refl.
  - exists (clear_tag_data (process_tags_iter (set_TAG_QUEUE [tag_A 1] init_world))).
    split; [|split].
    + eapply rtc_r; [exact reachable_after_offer_A|]. apply step_clear.
    + apply (bool_decide_unpack _). by vm_compute.
    + apply (bool_decide_unpack _). by vm_compute.
Qed.

(** ** C9, C10: the driver callback *)

Lemma decode_ascii_ok bs :
  Forall (λ b, (Byte.to_N b < 128)%N) bs →
  decode_ascii bs = inr (string_of_list_ascii (map ascii_of_byte bs)).
Proof.
  intros Hall. unfold decode_ascii.
  assert (forallb is_ascii_byte bs = true) as ->; [|done].
  apply forallb_forall. intros b Hb. unfold is_ascii_byte.
  apply N.ltb_lt. rewrite Forall_forall in Hall. apply Hall.
  by apply list_elem_of_In.
Qed.

Lemma decode_ascii_fails bs :
  Exists (λ b, (128 ≤ Byte.to_N b)%N) bs → decode_ascii bs = inl UnicodeDecodeError.
Proof.
  intros Hex. unfold decode_ascii.
  destruct (forallb is_ascii_byte bs) eqn:Hall; [|done].
  apply Exists_exists in Hex as (b & Hb & Hge).
  rewrite forallb_forall in Hall.
  specialize (Hall b (proj1 (list_elem_of_In _ _) Hb)).
  unfold is_ascii_byte in Hall. apply N.ltb_lt in Hall. lia.
Qed.

Lemma parse_tag_decodable tag bs :
  epc_decodable tag bs → parse_tag tag = inr (record_of tag bs).
Proof.
  intros [Hepc Hall]. unfold parse_tag, py_getitem. rewrite Hepc. simpl.
  by rewrite decode_ascii_ok.
Qed.

Lemma parse_tag_malformed tag :
  epc_missing tag ∨ epc_undecodable tag → ∃ e, parse_tag tag = inl e.
Proof.
  unfold parse_tag, py_getitem. intros [Hmiss|(v & Hv & Hbad)].
  - rewrite Hmiss. by eexists.
  - rewrite Hv. destruct v as [|z|bs|s]; simpl; try by eexists.
    rewrite decode_ascii_fails; [by eexists|]. by apply Hbad.
Qed.

Lemma tag_report_cb_app l1 l2 w :
  tag_report_cb (l1 ++ l2) w = tag_report_cb l2 (tag_report_cb l1 w).
Proof. unfold tag_report_cb. by rewrite foldl_app. Qed.

Lemma tag_report_cb_cons tag l w :
  tag_report_cb (tag :: l) w = tag_report_cb l (tag_report_one w tag).
Proof. reflexivity. Qed.

(** The callback touches the queue and the console only, and what it puts
    on the queue does not depend on the console. *)
Lemma tag_report_cb_frame batch w :
  READER (tag_report_cb batch w) = READER w
  ∧ SEEN_TAGS (tag_report_cb batch w) = SEEN_TAGS w
  ∧ seen_epcs (tag_report_cb batch w) = seen_epcs w
  ∧ llrp_calls (tag_report_cb batch w) = llrp_calls w.
Proof.
  revert w. induction batch as [|tag batch IH]; intros w; [done|].
  rewrite tag_report_cb_cons.
  destruct (IH (tag_report_one w tag)) as (-> & -> & -> & ->).
  unfold tag_report_one. by destruct (parse_tag tag).
Qed.

Lemma tag_report_cb_queue_print batch l w :
  TAG_QUEUE (tag_report_cb batch (print l w)) = TAG_QUEUE (tag_report_cb batch w).
Proof.
  revert l w. induction batch as [|tag batch IH]; intros l w; [done|].
  rewrite !tag_report_cb_cons. unfold tag_report_one.
  destruct (parse_tag tag) as [e|td].
  - by rewrite !IH.
  - apply (IH l (set_TAG_QUEUE (TAG_QUEUE w ++ [td]) w)).
Qed.

Lemma tag_report_cb_queue_mono batch w td :
  td ∈ TAG_QUEUE w → td ∈ TAG_QUEUE (tag_report_cb batch w).
Proof.
  revert w. induction batch as [|tag batch IH]; intros w Htd; [done|].
  rewrite tag_report_cb_cons. apply IH. unfold tag_report_one.
  destruct (parse_tag tag) as [e|td']; [done|].
  simpl. apply elem_of_app. by left.
Qed.

Lemma tag_report_cb_enqueues batch w good bs :
  good ∈ batch → epc_decodable good bs →
  record_of good bs ∈ TAG_QUEUE (tag_report_cb batch w).
Proof.
  revert w. induction batch as [|tag batch IH]; intros w Hin Hgood.
  - by apply elem_of_nil in Hin.
  - rewrite tag_report_cb_cons.
    apply elem_of_cons in Hin as [<-|Hin]; [|by apply IH].
    apply tag_report_cb_queue_mono. unfold tag_report_one.
    rewrite (parse_tag_decodable _ _ Hgood). simpl.
    apply elem_of_app. right. by apply list_elem_of_singleton.
Qed.

(** C9. In a batch, a report whose EPC is missing or does not decode as
    ASCII costs one warning and nothing else: the callback goes on with the
    rest of the batch, the queue ends as if the bad report had not been in
    the batch, and every well-formed report that follows it is on the queue. *)
Theorem tag_report_cb_isolates_bad_report
    (pre post : list (gmap string PyVal)) (bad : gmap string PyVal) (w : World) :
  epc_missing bad ∨ epc_undecodable bad →
  let w' := tag_report_cb (pre ++ bad :: post) w in
  (∃ e, w' = tag_report_cb post
               (print (out_error_parsing_tag e) (tag_report_cb pre w)))
  ∧ TAG_QUEUE w' = TAG_QUEUE (tag_report_cb (pre ++ post) w)
  ∧ (∀ good bs, good ∈ post → epc_decodable good bs →
       record_of good bs ∈ TAG_QUEUE w').
Proof.
  intros Hbad w'. destruct (parse_tag_malformed _ Hbad) as [e He].
  assert (w' = tag_report_cb post
                 (print (out_error_parsing_tag e) (tag_report_cb pre w))) as Hw'.
  { unfold w'. rewrite tag_report_cb_app, tag_report_cb_cons.
    unfold tag_report_one. by rewrite He. }
  split; [by exists e|]. split.
  - rewrite Hw', tag_report_cb_queue_print. by rewrite tag_report_cb_app.
  - intros good bs Hin Hgood. rewrite Hw'. by apply tag_report_cb_enqueues.
Qed.

Lemma tag_report_cb_isolates_bad_report_witness :
  TAG_QUEUE (tag_report_cb ([report_without_epc; bare_report]
                            ++ report_with_high_byte :: [bare_report])
                           init_world)
  = TAG_QUEUE (tag_report_cb ([report_without_epc; bare_report] ++ [bare_report])
                             init_world).
Proof.
  apply (tag_report_cb_isolates_bad_report [report_without_epc; bare_report]
           [bare_report] report_with_high_byte init_world).
  right. exists (PyBytes [Byte.x41; Byte.xe9]). split; [done|].
  intros bs [= <-]. apply Exists_cons_tl, Exists_cons_hd. by vm_compute.
Defined.

(** C10. A report with an ASCII EPC is enqueued without a warning whatever
    optional attributes it lacks; an attribute it lacks is [None] in the
    record; and the worker accepts and displays the record like any other. *)
Theorem missing_attributes_are_none
    (tag : gmap string PyVal) (bs : list Byte.byte) (w : World) :
  epc_decodable tag bs →
  let td := record_of tag bs in
  tag_report_cb [tag] w = set_TAG_QUEUE (TAG_QUEUE w ++ [td]) w
  ∧ (tag !! "ChannelIndex" = None → channel td = PyNone)
  ∧ (tag !! "LastSeenTimestampUTC" = None → last_seen td = PyNone)
  ∧ (tag !! "TagSeenCount" = None → seen_count td = PyNone)
  ∧ (TAG_QUEUE w = [] → epc td ∉ seen_epcs w →
     let w' := process_tags_iter (tag_report_cb [tag] w) in
     fst (offer td w) = accepted
     ∧ SEEN_TAGS w' = deque_append (SEEN_TAGS w) td
     ∧ stdout w' = stdout w ++
         [out_new_tag;
          out_tag_details (epc td) (channel td) (seen_count td) (last_seen td)]).
Proof.
  intros Hgood td.
  assert (tag_report_cb [tag] w = set_TAG_QUEUE (TAG_QUEUE w ++ [td]) w) as Hcb.
  { unfold tag_report_cb. simpl. unfold tag_report_one.
    by rewrite (parse_tag_decodable _ _ Hgood). }
  split; [done|].
  split; [by intros H; simpl; rewrite H|].
  split; [by intros H; simpl; rewrite H|].
  split; [by intros H; simpl; rewrite H|].
  intros Hq Hn w'. unfold w'. rewrite Hcb.
  unfold process_tags_iter. simpl. rewrite Hq. simpl.
  rewrite !offer_new by done. simpl.
  split; [done|]. split; [done|]. by rewrite <- app_assoc.
Qed.

Lemma missing_attributes_are_none_witness :
  tag_report_cb [bare_report] init_world
  = set_TAG_QUEUE [mkTagData "A" PyNone PyNone PyNone] init_world
  ∧ fst (offer (mkTagData "A" PyNone PyNone PyNone) init_world) = accepted
  ∧ stdout (process_tags_iter (tag_report_cb [bare_report] init_world))
    = [out_new_tag; out_tag_details "A" PyNone PyNone PyNone].
Proof.
  destruct (missing_attributes_are_none bare_report [Byte.x41] init_world)
    as (Hcb & _ & _ & _ & Hshow).
  { split; [done|]. apply Forall_cons. split; [by vm_compute|]. apply Forall_nil_2. }
  destruct Hshow as (Hacc & _ & Hout); [done|apply not_elem_of_empty|].
  split; [exact Hcb|]. split; [exact Hacc|exact Hout].
Defined.

(** ** C3, C4: the commands that call the driver *)

Section commands.
Variable llrp : LLRPCall → LLRPReaderClient → PyExn + LLRPReaderClient.

Lemma reader_alive_Some w r :
  READER w = Some r → is_alive r = true → reader_alive w = true.
Proof. intros Hr Ha. unfold reader_alive. by rewrite Hr. Qed.

Lemma call_llrp_raises c w r e :
  READER w = Some r → llrp c r = inl e →
  call_llrp llrp c w = Raised e (log_call c w).
Proof. intros Hr He. unfold call_llrp. by rewrite Hr, He. Qed.

Lemma call_llrp_returns c w r r' :
  READER w = Some r → llrp c r = inr r' →
  call_llrp llrp c w = Ok (set_READER (Some r') (log_call c w)).
Proof. intros Hr He. unfold call_llrp. by rewrite Hr, He. Qed.

Lemma start_reading_raises w r e :
  READER w = Some r → is_alive r = true → llrp startInventory r = inl e →
  start_reading llrp w = Raised e (log_call startInventory (clear_tag_data w)).
Proof.
  intros Hr Ha He. unfold start_reading.
  rewrite (reader_alive_Some _ _ Hr Ha).
  by rewrite (call_llrp_raises _ _ r e).
Qed.

Lemma stop_reading_raises w r e :
  READER w = Some r → is_alive r = true → llrp stopPolitely r = inl e →
  stop_reading llrp w = Raised e (log_call stopPolitely w).
Proof.
  intros Hr Ha He. unfold stop_reading.
  rewrite (reader_alive_Some _ _ Hr Ha).
  by rewrite (call_llrp_raises _ _ r e).
Qed.

Lemma user_interface_cons line rest w :
  user_interface llrp (line :: rest) w =
    let cmd := py_lower (py_strip line) in
    if decide (cmd = "start") then
      start_reading llrp (prompted w) >>> user_interface llrp rest
    else if decide (cmd = "stop") then
      stop_reading llrp (prompted w) >>> user_interface llrp rest
    else if decide (cmd = "clear") then
      user_interface llrp rest (clear_tag_data (prompted w))
    else if decide (cmd = "state") then
      print_reader_state (prompted w) >>> user_interface llrp rest
    else if decide (cmd = "exit") then stop_reading llrp (prompted w)
    else user_interface llrp rest (print out_unknown_command (prompted w)).
Proof. reflexivity. Qed.

End commands.

(** C3 (amended). An exception raised by the driver in [startInventory] or
    in [stopPolitely] is not caught, each call on its own account:
    [start_reading], respectively [stop_reading], ends by raising it, no
    failure notice is printed, and the prompt loop ends with the same
    exception whatever input remains. The set and the buffer are as they
    were before the failing call: for [start_reading] the buffer is the
    cleared one and the line of the clear is the only output, for
    [stop_reading] nothing has changed. *)
Theorem driver_exception_propagates
    (llrp : LLRPCall → LLRPReaderClient → PyExn + LLRPReaderClient)
    (w : World) (r : LLRPReaderClient) (rest : list string) :
  READER w = Some r →
  is_alive r = true →
  (∀ e, llrp startInventory r = inl e →
     (∃ w', start_reading llrp w = Raised e w'
            ∧ seen_epcs w' = seen_epcs w
            ∧ SEEN_TAGS w' = deque_clear (SEEN_TAGS w)
            ∧ stdout w' = stdout w ++ [out_tag_data_cleared]
            ∧ llrp_calls w' = llrp_calls w ++ [startInventory])
     ∧ (∃ w', user_interface llrp ("start" :: rest) w = Raised e w'
              ∧ stdout w' = stdout w ++ [out_commands; out_prompt; out_tag_data_cleared]))
  ∧ (∀ e, llrp stopPolitely r = inl e →
     (∃ w', stop_reading llrp w = Raised e w'
            ∧ seen_epcs w' = seen_epcs w
            ∧ SEEN_TAGS w' = SEEN_TAGS w
            ∧ stdout w' = stdout w
            ∧ llrp_calls w' = llrp_calls w ++ [stopPolitely])
     ∧ (∃ w', user_interface llrp ("stop" :: rest) w = Raised e w'
              ∧ stdout w' = stdout w ++ [out_commands; out_prompt])
     ∧ (∃ w', user_interface llrp ("exit" :: rest) w = Raised e w'
              ∧ stdout w' = stdout w ++ [out_commands; out_prompt])).
Proof.
  intros Hr Ha. split.
  - intros e He. split.
    + eexists. split; [by apply (start_reading_raises llrp w r e)|done].
    + eexists. rewrite user_interface_cons. simpl.
      rewrite (start_reading_raises llrp (prompted w) r e) by done.
      split; [done|]. simpl. by rewrite <- !app_assoc.
  - intros e He. split; [|split].
    + eexists. split; [by apply (stop_reading_raises llrp w r e)|done].
    + eexists. rewrite user_interface_cons. simpl.
      rewrite (stop_reading_raises llrp (prompted w) r e) by done.
      split; [done|]. simpl. by rewrite <- !app_assoc.
    + eexists. rewrite user_interface_cons. simpl.
      rewrite (stop_reading_raises llrp (prompted w) r e) by done.
      split; [done|]. simpl. by rewrite <- !app_assoc.
Qed.

Lemma driver_exception_propagates_witness :
  (∃ w', user_interface start_only_failing_llrp ["start"; "state"; "exit"] busy_world
         = Raised (LLRPError "inventory refused") w'
         ∧ stdout w' = stdout busy_world
                       ++ [out_commands; out_prompt; out_tag_data_cleared])
  ∧ (∃ w', user_interface stop_only_failing_llrp ["stop"; "state"; "exit"] busy_world
           = Raised (LLRPError "stop refused") w'
           ∧ stdout w' = stdout busy_world ++ [out_commands; out_prompt]).
Proof.
  split.
  - apply (driver_exception_propagates start_only_failing_llrp busy_world
             live_reader ["state"; "exit"]); reflexivity.
  - apply (driver_exception_propagates stop_only_failing_llrp busy_world
             live_reader ["state"; "exit"]); reflexivity.
Defined.

(** C3 (as stated, refuted). With a reader whose calls raise, [start_reading]
    and [stop_reading] raise instead of returning, and the prompt loop given
    start then state dies on the first line: the state is never printed. *)
Lemma driver_exception_not_caught :
  (∀ w', start_reading failing_llrp busy_world ≠ Ok w')
  ∧ (∀ w', stop_reading failing_llrp busy_world ≠ Ok w')
  ∧ ∃ e w', user_interface failing_llrp ["start"; "state"] busy_world = Raised e w'
            ∧ stdout w' = stdout busy_world
                          ++ [out_commands; out_prompt; out_tag_data_cleared].
Proof.
  split; [by intros w'|]. split; [by intros w'|].
  eexists _, _. split; [by vm_compute|]. by vm_compute.
Qed.

(** C4 (amended). When [READER] is [None] or not alive, [start_reading] and
    [stop_reading] return at once with the whole state as it was: no driver
    call, the set and the buffer untouched, and nothing printed. *)
Theorem start_stop_do_nothing_when_not_alive
    (llrp : LLRPCall → LLRPReaderClient → PyExn + LLRPReaderClient) (w : World) :
  reader_alive w = false →
  start_reading llrp w = Ok w ∧ stop_reading llrp w = Ok w.
Proof.
  intros Hdead. unfold start_reading, stop_reading. by rewrite Hdead.
Qed.

Lemma start_stop_do_nothing_when_not_alive_witness :
  start_reading obedient_llrp dead_world = Ok dead_world
  ∧ stop_reading obedient_llrp dead_world = Ok dead_world.
Proof.
  apply (start_stop_do_nothing_when_not_alive obedient_llrp dead_world).
  reflexivity.
Defined.

(** C4 (as stated, refuted). Neither with [READER = None] nor with a dead
    reader does start or stop print a notice. *)
Lemma no_notice_when_not_alive :
  (∃ w', start_reading obedient_llrp init_world = Ok w' ∧ stdout w' = stdout init_world)
  ∧ (∃ w', stop_reading obedient_llrp init_world = Ok w' ∧ stdout w' = stdout init_world)
  ∧ (∃ w', start_reading obedient_llrp dead_world = Ok w' ∧ stdout w' = stdout dead_world)
  ∧ (∃ w', stop_reading obedient_llrp dead_world = Ok w' ∧ stdout w' = stdout dead_world).
Proof. repeat split; by eexists. Qed.

(** ** C8: the prompt loop and the shutdown *)

Lemma not_command_cases cmd :
  ¬ is_command cmd →
  cmd ≠ "start" ∧ cmd ≠ "stop" ∧ cmd ≠ "clear" ∧ cmd ≠ "state" ∧ cmd ≠ "exit".
Proof. unfold is_command. intros Hn. repeat split; intros ->; apply Hn; tauto. Qed.

(** C8 (amended). A line is stripped and lowercased. start, stop, clear and
    state run the matching command function; when it returns the loop
    prompts again, and when start or stop raises the loop ends with the
    exception and no further prompt. Any other line but exit prints the
    unknown-command notice, changes nothing else and prompts again. exit
    runs [stop_reading] and leaves the loop, making no [disconnect] call;
    when that stop raises, nothing follows it. The disconnect belongs to the
    shutdown that follows a loop left normally: with no live reader it calls
    nothing; with a live reader it calls [stopPolitely] once more and, when
    that returns, [disconnect], and prints the notice when that returns too;
    when the second stop raises there is no disconnect, and when the
    disconnect raises there is no notice. *)
Theorem user_interface_dispatch
    (llrp : LLRPCall → LLRPReaderClient → PyExn + LLRPReaderClient)
    (line : string) (rest : list string) (w : World) :
  let cmd := py_lower (py_strip line) in
  let w0 := prompted w in
  (cmd = "start" →
     user_interface llrp (line :: rest) w
     = start_reading llrp w0 >>> user_interface llrp rest)
  ∧ (cmd = "stop" →
     user_interface llrp (line :: rest) w
     = stop_reading llrp w0 >>> user_interface llrp rest)
  ∧ (cmd = "clear" →
     user_interface llrp (line :: rest) w
     = user_interface llrp rest (clear_tag_data w0))
  ∧ (cmd = "state" →
     user_interface llrp (line :: rest) w
     = print_reader_state w0 >>> user_interface llrp rest)
  ∧ (¬ is_command cmd →
     user_interface llrp (line :: rest) w
     = user_interface llrp rest (print out_unknown_command w0))
  ∧ (cmd = "exit" →
     user_interface llrp (line :: rest) w = stop_reading llrp w0
     ∧ ∀ w', stop_reading llrp w0 = Ok w' →
         llrp_calls w' =
           llrp_calls w ++ (if reader_alive w then [stopPolitely] else [])
         ∧ main_loop llrp (line :: rest) w = shutdown llrp w')
  ∧ (reader_alive w = false → shutdown llrp w = Ok w)
  ∧ (∀ r r1 r2,
       READER w = Some r → is_alive r = true →
       llrp stopPolitely r = inr r1 → llrp disconnect r1 = inr r2 →
       ∃ w', shutdown llrp w = Ok w'
             ∧ llrp_calls w' = llrp_calls w ++ [stopPolitely; disconnect]
             ∧ stdout w' = stdout w ++ [out_reader_disconnected])
  ∧ (∀ w1, cmd = "start" → start_reading llrp w0 = Ok w1 →
       user_interface llrp (line :: rest) w = user_interface llrp rest w1)
  ∧ (∀ e w1, cmd = "start" → start_reading llrp w0 = Raised e w1 →
       user_interface llrp (line :: rest) w = Raised e w1)
  ∧ (∀ w1, cmd = "stop" → stop_reading llrp w0 = Ok w1 →
       user_interface llrp (line :: rest) w = user_interface llrp rest w1)
  ∧ (∀ e w1, cmd = "stop" → stop_reading llrp w0 = Raised e w1 →
       user_interface llrp (line :: rest) w = Raised e w1)
  ∧ (cmd = "state" →
       ∃ w1, print_reader_state w0 = Ok w1
             ∧ user_interface llrp (line :: rest) w = user_interface llrp rest w1)
  ∧ (∀ e w1, cmd = "exit" → stop_reading llrp w0 = Raised e w1 →
       main_loop llrp (line :: rest) w = Raised e w1)
  ∧ (∀ r e,
       READER w = Some r → is_alive r = true → llrp stopPolitely r = inl e →
       ∃ w', shutdown llrp w = Raised e w'
             ∧ llrp_calls w' = llrp_calls w ++ [stopPolitely]
             ∧ stdout w' = stdout w)
  ∧ (∀ r r1 e,
       READER w = Some r → is_alive r = true →
       llrp stopPolitely r = inr r1 → llrp disconnect r1 = inl e →
       ∃ w', shutdown llrp w = Raised e w'
             ∧ llrp_calls w' = llrp_calls w ++ [stopPolitely; disconnect]
             ∧ stdout w' = stdout w).
Proof.
  intros cmd w0. rewrite user_interface_cons. fold cmd. fold w0. cbv zeta.
  split; [by intros ->|]. split; [by intros ->|].
  split; [by intros ->|]. split; [by intros ->|].
  split.
  { intros (? & ? & ? & ? & ?)%not_command_cases.
    by rewrite !decide_False by done. }
  split.
  { intros Hexit. rewrite Hexit. split; [done|]. intros w' Hstop. split.
    - revert Hstop. unfold stop_reading, call_llrp.
      change (reader_alive w0) with (reader_alive w).
      change (READER w0) with (READER w).
      unfold reader_alive. destruct (READER w) as [r|]; simpl.
      + destruct (is_alive r).
        * destruct (llrp stopPolitely r) as [e|r']; simpl; [done|].
          by intros [= <-].
        * intros [= <-]. simpl. by rewrite app_nil_r.
      + intros [= <-]. simpl. by rewrite app_nil_r.
    - unfold main_loop. rewrite user_interface_cons. fold cmd.
      rewrite Hexit. simpl. fold w0. by rewrite Hstop. }
  split.
  { intros Hdead. unfold shutdown. by rewrite Hdead. }
  split.
  { intros r r1 r2 Hr Ha H1 H2. unfold shutdown.
    rewrite (reader_alive_Some _ _ Hr Ha).
    rewrite (call_llrp_returns llrp stopPolitely w r r1 Hr H1). simpl.
    rewrite (call_llrp_returns llrp disconnect
               (set_READER (Some r1) (log_call stopPolitely w)) r1 r2 eq_refl H2).
    simpl.
    eexists. split; [done|]. simpl. by rewrite <- app_assoc. }
  split; [by intros w1 -> ->|]. split; [by intros e w1 -> ->|].
  split; [by intros w1 -> ->|]. split; [by intros e w1 -> ->|].
  split.
  { intros ->. unfold print_reader_state.
    destruct (READER w0) as [r|]; [destruct (is_alive r)|]; by eexists. }
  split.
  { intros e w1 Hexit Hstop. unfold main_loop. rewrite user_interface_cons.
    fold cmd. rewrite Hexit. simpl. fold w0. by rewrite Hstop. }
  split.
  { intros r e Hr Ha H1. unfold shutdown.
    rewrite (reader_alive_Some _ _ Hr Ha).
    rewrite (call_llrp_raises llrp stopPolitely w r e Hr H1). simpl.
    by eexists. }
  intros r r1 e Hr Ha H1 H2. unfold shutdown.
  rewrite (reader_alive_Some _ _ Hr Ha).
  rewrite (call_llrp_returns llrp stopPolitely w r r1 Hr H1). simpl.
  rewrite (call_llrp_raises llrp disconnect
             (set_READER (Some r1) (log_call stopPolitely w)) r1 e eq_refl H2).
  simpl.
  eexists. split; [done|]. simpl. by rewrite <- app_assoc.
Qed.

Lemma user_interface_dispatch_witness :
  user_interface obedient_llrp ["  EXIT "; "start"] connected_world
  = stop_reading obedient_llrp (prompted connected_world)
  ∧ ∃ w', shutdown stop_only_failing_llrp connected_world
          = Raised (LLRPError "stop refused") w'
          ∧ llrp_calls w' = llrp_calls connected_world ++ [stopPolitely]
          ∧ stdout w' = stdout connected_world.
Proof.
  split.
  - apply (user_interface_dispatch obedient_llrp "  EXIT " ["start"] connected_world).
    reflexivity.
  - pose proof (user_interface_dispatch stop_only_failing_llrp "exit" []
                  connected_world) as H.
    cbv zeta in H.
    destruct H as (_ & _ & _ & _ & _ & _ & _ & _ & _ & _ & _ & _ & _ & _ & Hstop & _).
    apply (Hstop live_reader); reflexivity.
Defined.

(** C8 (as stated, refuted). With a live, obedient reader the loop given
    exit ends having called [stopPolitely] only; the whole of [main_loop]
    then calls [stopPolitely] again and [disconnect]. With no live reader
    exit calls the driver not at all. *)
Lemma exit_leaves_loop_without_disconnect :
  (∃ w', user_interface obedient_llrp ["exit"] connected_world = Ok w'
         ∧ llrp_calls w' = [stopPolitely])
  ∧ (∃ w', main_loop obedient_llrp ["exit"] connected_world = Ok w'
           ∧ llrp_calls w' = [stopPolitely; stopPolitely; disconnect])
  ∧ (∃ w', main_loop obedient_llrp ["exit"] dead_world = Ok w'
           ∧ llrp_calls w' = []).
Proof. repeat split; eexists; split; by vm_compute. Qed.

(** * Further properties of the program *)

(** ** The worker: acceptance, output and the loop *)

Lemma accepted_ever_NoDup (ops : list Op) (w : World) :
  NoDup (epc <$> accepted_ever (fst (run ops w)))
  ∧ ∀ e, e ∈ epc <$> accepted_ever (fst (run ops w)) → e ∉ seen_epcs w.
Proof.
  revert w. induction ops as [|[tag|] ops IH]; intros w.
  - simpl. split; [apply NoDup_nil_2|]. intros e He. by apply elem_of_nil in He.
  - rewrite run_offer. unfold accepted_ever. simpl.
    destruct (offer_cases tag w) as [(Hn & Hr & Hs & _)|[Hin Heq]].
    + rewrite Hr. simpl. fold (accepted_ever (fst (run ops (snd (offer tag w))))).
      destruct (IH (snd (offer tag w))) as [Hnd Hfresh].
      split.
      * apply NoDup_cons. split; [|done]. intros Hin.
        apply (Hfresh _ Hin). rewrite Hs.
        apply elem_of_union. right. by apply elem_of_singleton.
      * intros e [->|He]%elem_of_cons; [done|].
        intros Hin. apply (Hfresh _ He). rewrite Hs.
        apply elem_of_union. by left.
    + rewrite Heq. simpl. apply IH.
  - rewrite run_clear. unfold accepted_ever. simpl.
    apply (IH (clear_tag_data w)).
Qed.

Lemma run_stdout_and_frame (ops : list Op) (w : World) :
  stdout (snd (run ops w)) = stdout w ++ concat (lines_of_event <$> fst (run ops w))
  ∧ READER (snd (run ops w)) = READER w
  ∧ TAG_QUEUE (snd (run ops w)) = TAG_QUEUE w
  ∧ llrp_calls (snd (run ops w)) = llrp_calls w.
Proof.
  revert w. induction ops as [|[tag|] ops IH]; intros w.
  - simpl. by rewrite app_nil_r.
  - rewrite run_offer. simpl.
    destruct (IH (snd (offer tag w))) as (-> & -> & -> & ->).
    destruct (decide (epc tag ∈ seen_epcs w)) as [Hin|Hn].
    + by rewrite (offer_seen _ _ Hin).
    + rewrite (offer_new _ _ Hn). simpl. by rewrite <- !app_assoc.
  - rewrite run_clear. simpl.
    destruct (IH (clear_tag_data w)) as (-> & -> & -> & ->).
    simpl. by rewrite <- app_assoc.
Qed.

(** X1. Whatever the sequence of offers and clears, no EPC is accepted
    twice, and no EPC that was in the set at the start is accepted at all. *)
Theorem accepted_at_most_once (ops : list Op) (w : World) :
  NoDup (epc <$> accepted_ever (fst (run ops w)))
  ∧ ∀ e, e ∈ epc <$> accepted_ever (fst (run ops w)) → e ∉ seen_epcs w.
Proof. apply accepted_ever_NoDup. Qed.

(** X3. The console shows a run of offers and clears exactly: two lines for
    each accepted record, nothing for a duplicate, one line for a clear, in
    the order of the calls; and such a run leaves the reader handle, the
    queue and the log of driver calls alone. *)
Theorem run_console_output (ops : list Op) (w : World) :
  stdout (snd (run ops w)) = stdout w ++ concat (lines_of_event <$> fst (run ops w))
  ∧ READER (snd (run ops w)) = READER w
  ∧ TAG_QUEUE (snd (run ops w)) = TAG_QUEUE w
  ∧ llrp_calls (snd (run ops w)) = llrp_calls w.
Proof. apply run_stdout_and_frame. Qed.

Lemma offer_set_TAG_QUEUE tag q w :
  offer tag (set_TAG_QUEUE q w)
  = (fst (offer tag w), set_TAG_QUEUE q (snd (offer tag w))).
Proof.
  destruct (decide (epc tag ∈ seen_epcs w)) as [Hin|Hn].
  - by rewrite !offer_seen.
  - by rewrite !offer_new.
Qed.

Lemma offer_TAG_QUEUE tag w : TAG_QUEUE (snd (offer tag w)) = TAG_QUEUE w.
Proof.
  destruct (decide (epc tag ∈ seen_epcs w)) as [Hin|Hn].
  - by rewrite offer_seen.
  - by rewrite offer_new.
Qed.

Lemma process_tags_loop_idle n w :
  TAG_QUEUE w = [] → process_tags_loop n w = w.
Proof.
  intros Hq. induction n as [|n IH]; [done|].
  simpl. unfold process_tags_iter. by rewrite Hq.
Qed.

Lemma set_TAG_QUEUE_same w : set_TAG_QUEUE (TAG_QUEUE w) w = w.
Proof. by destruct w. Qed.

Lemma set_TAG_QUEUE_twice q1 q2 w :
  set_TAG_QUEUE q1 (set_TAG_QUEUE q2 w) = set_TAG_QUEUE q1 w.
Proof. done. Qed.

Lemma process_tags_loop_drains q k w :
  TAG_QUEUE w = q →
  process_tags_loop (length q + k) w
  = snd (run (op_offer <$> q) (set_TAG_QUEUE [] w)).
Proof.
  revert w. induction q as [|tag q IH]; intros w Hq.
  - simpl. rewrite process_tags_loop_idle by done.
    by rewrite <- Hq, set_TAG_QUEUE_same.
  - rewrite fmap_cons, run_offer. simpl.
    unfold process_tags_iter at 1. rewrite Hq.
    rewrite IH.
    + f_equal. f_equal. rewrite !offer_set_TAG_QUEUE. done.
    + by rewrite offer_TAG_QUEUE.
Qed.

(** X4. The worker takes the queue in order: once it has made as many
    iterations as there were records waiting, the queue is empty and the
    state is that of offering the records one by one from the head; any
    further iteration (an [Empty] timeout) changes nothing. *)
Theorem process_tags_loop_fifo (k : nat) (w : World) :
  let w' := process_tags_loop (length (TAG_QUEUE w) + k) w in
  w' = snd (run (op_offer <$> TAG_QUEUE w) (set_TAG_QUEUE [] w))
  ∧ TAG_QUEUE w' = []
  ∧ process_tags_iter w' = w'.
Proof.
  intros w'. unfold w'. rewrite (process_tags_loop_drains (TAG_QUEUE w)) by done.
  split; [done|].
  destruct (run_stdout_and_frame (op_offer <$> TAG_QUEUE w) (set_TAG_QUEUE [] w))
    as (_ & _ & Hq & _).
  split; [done|]. unfold process_tags_iter. by rewrite Hq.
Qed.

(** ** The callback and the decoding of EPCs *)

Lemma forallb_is_ascii_byte bs :
  forallb is_ascii_byte bs = true ↔ Forall (λ b, (Byte.to_N b < 128)%N) bs.
Proof.
  induction bs as [|b bs IH]; simpl.
  - split; [intros _; apply Forall_nil_2|done].
  - rewrite andb_true_iff, Forall_cons, IH. unfold is_ascii_byte.
    by rewrite N.ltb_lt.
Qed.

Lemma forallb_is_ascii_byte_false bs :
  forallb is_ascii_byte bs = false ↔ Exists (λ b, (128 ≤ Byte.to_N b)%N) bs.
Proof.
  induction bs as [|b bs IH]; simpl.
  - split; [done|]. intros H. by apply Exists_nil in H.
  - rewrite andb_false_iff, Exists_cons, IH. unfold is_ascii_byte.
    rewrite N.ltb_ge. done.
Qed.

(** X6. What [tag_report_cb] makes of one report depends on its EPC entry
    alone: a record exactly when the entry is a byte string of ASCII bytes,
    [KeyError] exactly when the entry is missing, [UnicodeDecodeError]
    exactly when it is a byte string with a byte of 0x80 or above, and
    [AttributeError] exactly when it is not a byte string. *)
Theorem parse_tag_classification (tag : gmap string PyVal) :
  (∀ td, parse_tag tag = inr td
         ↔ ∃ bs, epc_decodable tag bs ∧ td = record_of tag bs)
  ∧ (∀ e, parse_tag tag = inl e →
          e = KeyError "EPC" ∨ e = UnicodeDecodeError ∨ e = AttributeError "decode")
  ∧ (parse_tag tag = inl (KeyError "EPC") ↔ epc_missing tag)
  ∧ (parse_tag tag = inl UnicodeDecodeError
     ↔ ∃ bs, tag !! "EPC" = Some (PyBytes bs)
             ∧ Exists (λ b, (128 ≤ Byte.to_N b)%N) bs)
  ∧ (parse_tag tag = inl (AttributeError "decode")
     ↔ ∃ v, tag !! "EPC" = Some v ∧ ∀ bs, v ≠ PyBytes bs).
Proof.
  unfold parse_tag, py_getitem, epc_missing, epc_decodable, record_of, py_get.
  destruct (tag !! "EPC") as [v|] eqn:Hv.
  - destruct v as [|z|bs|s]; simpl.
    1,2,4: repeat split; try done; try (intros (? & ? & ?); done);
      try (intros (? & (? & ?) & ?); done); try naive_solver.
    unfold decode_ascii.
    destruct (forallb is_ascii_byte bs) eqn:Hall.
    + pose proof (proj1 (forallb_is_ascii_byte bs) Hall) as HF.
      assert (¬ Exists (λ b, (128 ≤ Byte.to_N b)%N) bs) as HnE.
      { intros HE%forallb_is_ascii_byte_false. congruence. }
      split.
      { intros td. split.
        - intros [= <-]. by exists bs.
        - intros (bs' & [[= <-] _] & ->). done. }
      split; [done|]. split; [done|]. split.
      { split; [done|]. intros (bs' & [= <-] & HE). done. }
      split; [done|]. intros (v & [= <-] & Hne). by destruct (Hne bs).
    + pose proof (proj1 (forallb_is_ascii_byte_false bs) Hall) as HE.
      split.
      { intros td. split; [done|].
        intros (bs' & [[= <-] HF%forallb_is_ascii_byte] & _). congruence. }
      split; [intros e [= <-]; tauto|]. split; [done|]. split.
      { split; [|done]. intros _. by exists bs. }
      split; [done|]. intros (v & [= <-] & Hne). by destruct (Hne bs).
  - split.
    { intros td. split; [done|]. intros (bs & [? _] & _). done. }
    split; [intros e [= <-]; tauto|]. split; [done|]. split.
    { split; [done|]. intros (bs & ? & _). done. }
    split; [done|]. intros (v & ? & _). done.
Qed.

Lemma parse_tag_classification_witness :
  parse_tag report_with_high_byte = inl UnicodeDecodeError
  ∧ parse_tag report_without_epc = inl (KeyError "EPC").
Proof.
  split.
  - apply (parse_tag_classification report_with_high_byte).
    exists [Byte.x41; Byte.xe9]. split; [done|].
    apply Exists_cons_tl, Exists_cons_hd. by vm_compute.
  - by apply (parse_tag_classification report_without_epc).
Defined.

(** X5. The callback keeps the order of the batch and loses no report:
    the records of the reports that parse go to the back of the queue in
    batch order, the warnings of the others go to the console in batch
    order, each report gives exactly one of the two, and the reader handle,
    the buffer, the set and the driver log are not touched. *)
Theorem tag_report_cb_queue_and_warnings
    (batch : list (gmap string PyVal)) (w : World) :
  let w' := tag_report_cb batch w in
  TAG_QUEUE w' = TAG_QUEUE w ++ omap enqueued_of batch
  ∧ stdout w' = stdout w ++ omap warning_of batch
  ∧ length (omap enqueued_of batch) + length (omap warning_of batch) = length batch
  ∧ READER w' = READER w
  ∧ SEEN_TAGS w' = SEEN_TAGS w
  ∧ seen_epcs w' = seen_epcs w
  ∧ llrp_calls w' = llrp_calls w.
Proof.
  revert w. induction batch as [|tag batch IH]; intros w.
  - simpl. by rewrite !app_nil_r.
  - cbv zeta in *. rewrite tag_report_cb_cons.
    destruct (IH (tag_report_one w tag)) as (-> & -> & Hlen & -> & -> & -> & ->).
    unfold tag_report_one, enqueued_of, warning_of in *. simpl.
    destruct (parse_tag tag) as [e|td]; simpl.
    + rewrite <- app_assoc. simpl. repeat split; try done.
      unfold omap in Hlen. lia.
    + rewrite <- app_assoc. simpl. repeat split; try done.
      unfold omap in Hlen. lia.
Qed.

Lemma map_ascii_of_byte_inj bs1 bs2 :
  map ascii_of_byte bs1 = map ascii_of_byte bs2 → bs1 = bs2.
Proof.
  revert bs2. induction bs1 as [|b1 bs1 IH]; intros [|b2 bs2]; simpl; try done.
  intros [= Hb Hbs]. f_equal; [|by apply IH].
  apply (f_equal byte_of_ascii) in Hb.
  by rewrite !byte_of_ascii_of_byte in Hb.
Qed.

(** X7. Decoding an EPC loses nothing: the string has one character for each
    byte, and two byte strings that decode to the same string are the same,
    so deduplicating on the decoded string is deduplicating on the bytes
    the reader sent. *)
Theorem decode_ascii_faithful (bs1 bs2 : list Byte.byte) (s : string) :
  decode_ascii bs1 = inr s →
  decode_ascii bs2 = inr s →
  bs1 = bs2 ∧ String.length s = length bs1.
Proof.
  unfold decode_ascii. intros H1 H2.
  destruct (forallb is_ascii_byte bs1); [|done].
  destruct (forallb is_ascii_byte bs2); [|done].
  injection H1 as <-. injection H2 as H2.
  split.
  - apply map_ascii_of_byte_inj.
    apply (f_equal list_ascii_of_string) in H2.
    by rewrite !list_ascii_of_string_of_list_ascii in H2.
  - rewrite <- (length_map ascii_of_byte bs1).
    generalize (map ascii_of_byte bs1). intros l.
    induction l as [|c l IH]; simpl; [done|]. by rewrite IH.
Qed.

Lemma decode_ascii_faithful_witness :
  [Byte.x41; Byte.x42] = [Byte.x41; Byte.x42]
  ∧ String.length "AB" = length [Byte.x41; Byte.x42].
Proof.
  apply (decode_ascii_faithful [Byte.x41; Byte.x42] [Byte.x41; Byte.x42] "AB");
    reflexivity.
Defined.

(** ** The prompt loop *)

Section prompt_loop.
Variable llrp : LLRPCall → LLRPReaderClient → PyExn + LLRPReaderClient.

Lemma call_llrp_untouched c w : untouched w (result_world (call_llrp llrp c w)).
Proof.
  unfold call_llrp. destruct (READER w) as [r|]; [|done].
  by destruct (llrp c r).
Qed.

Lemma bind_untouched (r : Result) (k : World → Result) w :
  untouched w (result_world r) →
  (∀ w1, untouched w1 (result_world (k w1))) →
  untouched w (result_world (r >>> k)).
Proof.
  intros Hr Hk. destruct r as [w1|e w1]; simpl in *; [|done].
  destruct (Hk w1) as [Hs Hq]. destruct Hr as [Hs1 Hq1].
  split; congruence.
Qed.

Lemma start_reading_untouched w : untouched w (result_world (start_reading llrp w)).
Proof.
  unfold start_reading. destruct (reader_alive w); [|done].
  pose proof (call_llrp_untouched startInventory (clear_tag_data w)) as H.
  by destruct (call_llrp llrp startInventory (clear_tag_data w)).
Qed.

Lemma stop_reading_untouched w : untouched w (result_world (stop_reading llrp w)).
Proof.
  unfold stop_reading. destruct (reader_alive w); [|done].
  pose proof (call_llrp_untouched stopPolitely w) as H.
  by destruct (call_llrp llrp stopPolitely w).
Qed.

Lemma print_reader_state_untouched w :
  untouched w (result_world (print_reader_state w)).
Proof.
  unfold print_reader_state. destruct (READER w) as [r|]; [|done].
  by destruct (is_alive r).
Qed.

Lemma shutdown_untouched w : untouched w (result_world (shutdown llrp w)).
Proof.
  unfold shutdown. destruct (reader_alive w); [|done].
  apply bind_untouched; [apply call_llrp_untouched|]. intros w1.
  apply bind_untouched; [apply call_llrp_untouched|]. done.
Qed.

Lemma user_interface_untouched inputs w :
  untouched w (result_world (user_interface llrp inputs w)).
Proof.
  revert w. induction inputs as [|line rest IH]; intros w; [done|].
  rewrite user_interface_cons. cbv zeta.
  assert (∀ w', untouched (prompted w) w' → untouched w w') as Hp by done.
  apply Hp. repeat case_decide.
  - apply bind_untouched; [apply start_reading_untouched|done].
  - apply bind_untouched; [apply stop_reading_untouched|done].
  - apply (IH (clear_tag_data (prompted w))).
  - apply bind_untouched; [apply print_reader_state_untouched|done].
  - apply stop_reading_untouched.
  - apply (IH (print out_unknown_command (prompted w))).
Qed.

Lemma main_loop_untouched inputs w :
  untouched w (result_world (main_loop llrp inputs w)).
Proof.
  unfold main_loop. apply bind_untouched.
  - apply user_interface_untouched.
  - apply shutdown_untouched.
Qed.

End prompt_loop.

(** X8. Nothing the operator types reaches the worker's set or the queue:
    after any lines, whatever the driver does and whether the loop ends by
    exit, by end of input or by an exception, [seen_epcs] and [TAG_QUEUE]
    are as before. A tag shown once is therefore answered duplicate after
    any commands, clear and start included. *)
Theorem operator_never_resets_seen_epcs
    (llrp : LLRPCall → LLRPReaderClient → PyExn + LLRPReaderClient)
    (inputs : list string) (w : World) (tag : TagData) :
  let w' := result_world (main_loop llrp inputs w) in
  seen_epcs w' = seen_epcs w
  ∧ TAG_QUEUE w' = TAG_QUEUE w
  ∧ (epc tag ∈ seen_epcs w → fst (offer tag w') = duplicate).
Proof.
  intros w'. destruct (main_loop_untouched llrp inputs w) as [Hs Hq].
  split; [done|]. split; [done|].
  intros Hin. rewrite offer_seen; [done|]. unfold w'. by rewrite Hs.
Qed.

Lemma operator_never_resets_seen_epcs_witness :
  fst (offer (tag_A 2)
         (result_world (main_loop obedient_llrp ["clear"; "start"; "exit"] busy_world)))
  = duplicate.
Proof.
  apply (operator_never_resets_seen_epcs obedient_llrp ["clear"; "start"; "exit"]
           busy_world (tag_A 2)).
  apply (bool_decide_unpack _). by vm_compute.
Defined.

(** X9. The loop reads nothing after an exit line: the lines that follow it
    make no difference to the result. *)
Theorem input_after_exit_is_ignored
    (llrp : LLRPCall → LLRPReaderClient → PyExn + LLRPReaderClient)
    (pre post : list string) (line : string) (w : World) :
  command_of line = "exit" →
  user_interface llrp (pre ++ line :: post) w
  = user_interface llrp (pre ++ [line]) w.
Proof.
  unfold command_of. intros Hexit. revert w.
  induction pre as [|l pre IH]; intros w.
  - simpl app. rewrite !user_interface_cons. cbv zeta. rewrite Hexit. done.
  - rewrite <- !app_comm_cons, !user_interface_cons. cbv zeta.
    repeat case_decide; try done.
    + destruct (start_reading llrp (prompted w)); simpl; [apply IH|done].
    + destruct (stop_reading llrp (prompted w)); simpl; [apply IH|done].
    + destruct (print_reader_state (prompted w)); simpl; [apply IH|done].
Qed.

Lemma input_after_exit_is_ignored_witness :
  user_interface obedient_llrp (["state"] ++ " Exit" :: ["start"; "stop"]) connected_world
  = user_interface obedient_llrp (["state"] ++ [" Exit"]) connected_world.
Proof.
  apply (input_after_exit_is_ignored obedient_llrp ["state"] ["start"; "stop"]
           " Exit" connected_world).
  reflexivity.
Defined.

Section no_live_reader.
Variable llrp : LLRPCall → LLRPReaderClient → PyExn + LLRPReaderClient.

Lemma user_interface_not_alive inputs w :
  reader_alive w = false →
  llrp_calls (result_world (user_interface llrp inputs w)) = llrp_calls w
  ∧ reader_alive (result_world (user_interface llrp inputs w)) = false
  ∧ (Exists (λ l, command_of l = "exit") inputs →
     ∃ w', user_interface llrp inputs w = Ok w')
  ∧ (Forall (λ l, command_of l ≠ "exit") inputs →
     ∃ w', user_interface llrp inputs w = Raised EOFError w').
Proof.
  revert w. induction inputs as [|line rest IH]; intros w Hdead.
  - simpl. split; [done|]. split; [done|]. split.
    + intros H. by apply Exists_nil in H.
    + intros _. by eexists.
  - assert (reader_alive (prompted w) = false) as Hdead0 by done.
    assert (llrp_calls (prompted w) = llrp_calls w) as Hcalls by done.
    rewrite user_interface_cons. cbv zeta. rewrite Exists_cons, Forall_cons.
    unfold command_of at 1 2.
    unfold start_reading, stop_reading. rewrite Hdead0.
    assert (print_reader_state (prompted w)
            = Ok (print out_reader_not_connected (prompted w))) as ->.
    { unfold print_reader_state. unfold reader_alive in Hdead0.
      destruct (READER (prompted w)) as [r|]; [|done]. by rewrite Hdead0. }
    simpl bind.
    repeat case_decide.
    + destruct (IH (prompted w) Hdead0) as (-> & -> & HE & HF).
      repeat split; try done; [intros [?|?]; [congruence|auto]|intros [_ ?]; auto].
    + destruct (IH (prompted w) Hdead0) as (-> & -> & HE & HF).
      repeat split; try done; [intros [?|?]; [congruence|auto]|intros [_ ?]; auto].
    + destruct (IH (clear_tag_data (prompted w)) Hdead0) as (-> & -> & HE & HF).
      repeat split; try done; [intros [?|?]; [congruence|auto]|intros [_ ?]; auto].
    + destruct (IH (print out_reader_not_connected (prompted w)) Hdead0)
        as (-> & -> & HE & HF).
      repeat split; try done; [intros [?|?]; [congruence|auto]|intros [_ ?]; auto].
    + repeat split; try done; [intros _; by eexists|intros [? _]; done].
    + destruct (IH (print out_unknown_command (prompted w)) Hdead0)
        as (-> & -> & HE & HF).
      repeat split; try done; [intros [?|?]; [congruence|auto]|intros [_ ?]; auto].
Qed.

End no_live_reader.

(** X10. Without a live reader the whole of the prompt loop and the shutdown
    makes no driver call, whatever is typed; it ends normally when some line
    is an exit and with [EOFError] when the input runs out without one. *)
Theorem no_driver_call_without_live_reader
    (llrp : LLRPCall → LLRPReaderClient → PyExn + LLRPReaderClient)
    (inputs : list string) (w : World) :
  reader_alive w = false →
  llrp_calls (result_world (main_loop llrp inputs w)) = llrp_calls w
  ∧ (Exists (λ l, command_of l = "exit") inputs →
     ∃ w', main_loop llrp inputs w = Ok w')
  ∧ (Forall (λ l, command_of l ≠ "exit") inputs →
     ∃ w', main_loop llrp inputs w = Raised EOFError w').
Proof.
  intros Hdead.
  destruct (user_interface_not_alive llrp inputs w Hdead) as (Hc & Ha & HE & HF).
  unfold main_loop.
  destruct (user_interface llrp inputs w) as [w1|e w1] eqn:Hui; simpl in *.
  - unfold shutdown. rewrite Ha. simpl. split; [done|]. split.
    + intros _. by eexists.
    + intros Hall. destruct (HF Hall) as [w' ?]. done.
  - split; [done|]. split.
    + intros Hex. destruct (HE Hex) as [w' ?]. done.
    + intros Hall. destruct (HF Hall) as [w' [= -> ->]]. by eexists.
Qed.

Lemma no_driver_call_without_live_reader_witness :
  llrp_calls (result_world (main_loop failing_llrp ["start"; "stop"; "exit"] dead_world))
  = llrp_calls dead_world
  ∧ (∃ w', main_loop failing_llrp ["start"; "stop"; "exit"] dead_world = Ok w').
Proof.
  destruct (no_driver_call_without_live_reader failing_llrp
              ["start"; "stop"; "exit"] dead_world) as (Hc & HE & _).
  { reflexivity. }
  split; [exact Hc|]. apply HE.
  apply Exists_cons_tl, Exists_cons_tl, Exists_cons_hd. reflexivity.
Defined.

(** ** Reading a command: [strip] and [lower] *)

Lemma py_lstrip_space_app p s :
  py_all_space p = true → py_lstrip (p +:+ s) = py_lstrip s.
Proof.
  induction p as [|c p IH]; simpl; [done|].
  intros [Hc Hp]%andb_true_iff. rewrite Hc. by apply IH.
Qed.

Lemma py_lstrip_all_space s : py_all_space s = true → py_lstrip s = "".
Proof.
  induction s as [|c s IH]; simpl; [done|].
  intros [Hc Hs]%andb_true_iff. rewrite Hc. by apply IH.
Qed.

Lemma py_lstrip_empty s : py_lstrip s = "" → py_all_space s = true.
Proof.
  induction s as [|c s IH]; simpl; [done|].
  destruct (py_isspace c); [|done]. simpl. apply IH.
Qed.

Lemma py_lstrip_app s p :
  py_lstrip s ≠ "" → py_lstrip (s +:+ p) = py_lstrip s +:+ p.
Proof.
  induction s as [|c s IH]; simpl; [done|].
  destruct (py_isspace c); [apply IH|done].
Qed.

Lemma py_all_space_app a b :
  py_all_space (a +:+ b) = py_all_space a && py_all_space b.
Proof.
  induction a as [|c a IH]; simpl; [done|]. by rewrite IH, andb_assoc.
Qed.

Lemma py_rstrip_all_space p : py_all_space p = true → py_rstrip p = "".
Proof.
  induction p as [|c p IH]; simpl; [done|].
  intros [Hc Hp]%andb_true_iff. by rewrite (IH Hp), Hc.
Qed.

Lemma py_rstrip_app_space s p :
  py_all_space p = true → py_rstrip (s +:+ p) = py_rstrip s.
Proof.
  intros Hp. induction s as [|c s IH]; simpl.
  - by apply py_rstrip_all_space.
  - by rewrite IH.
Qed.

(** X11. White space around a line does not matter: with any run of white
    space before and after, a line strips to the same string and stands for
    the same command; a line of white space only strips to the empty
    string. *)
Theorem strip_ignores_padding (p1 p2 s : string) :
  py_all_space p1 = true →
  py_all_space p2 = true →
  py_strip (p1 +:+ s +:+ p2) = py_strip s
  ∧ command_of (p1 +:+ s +:+ p2) = command_of s
  ∧ py_strip (p1 +:+ p2) = "".
Proof.
  intros H1 H2.
  assert (py_strip (p1 +:+ s +:+ p2) = py_strip s) as Hs.
  { unfold py_strip. rewrite py_lstrip_space_app by done.
    destruct (decide (py_lstrip s = "")) as [He|Hne].
    - rewrite He. rewrite py_lstrip_all_space; [done|].
      rewrite py_all_space_app, H2, (py_lstrip_empty _ He). done.
    - rewrite py_lstrip_app by done. by apply py_rstrip_app_space. }
  split; [done|]. split; [unfold command_of; by rewrite Hs|].
  unfold py_strip. rewrite py_lstrip_all_space; [done|].
  by rewrite py_all_space_app, H1, H2.
Qed.

Lemma strip_ignores_padding_witness :
  command_of ("  " +:+ "StArT" +:+ " ") = command_of "StArT"
  ∧ command_of "StArT" = "start".
Proof.
  split; [|reflexivity].
  apply (strip_ignores_padding "  " " " "StArT"); reflexivity.
Defined.

Lemma py_lower_char_idem c : py_lower_char (py_lower_char c) = py_lower_char c.
Proof. destruct c as [[] [] [] [] [] [] [] []]; reflexivity. Qed.

Lemma py_isspace_lower_char c : py_isspace (py_lower_char c) = py_isspace c.
Proof. destruct c as [[] [] [] [] [] [] [] []]; reflexivity. Qed.

Lemma py_lower_idem s : py_lower (py_lower s) = py_lower s.
Proof.
  induction s as [|c s IH]; simpl; [done|]. by rewrite py_lower_char_idem, IH.
Qed.

Lemma py_lstrip_lower s : py_lstrip (py_lower s) = py_lower (py_lstrip s).
Proof.
  induction s as [|c s IH]; simpl; [done|].
  rewrite py_isspace_lower_char. by destruct (py_isspace c).
Qed.

Lemma py_rstrip_lower s : py_rstrip (py_lower s) = py_lower (py_rstrip s).
Proof.
  induction s as [|c s IH]; simpl; [done|].
  rewrite IH, py_isspace_lower_char.
  destruct (py_rstrip s); simpl; [|done]. by destruct (py_isspace c).
Qed.

(** A string that is empty or starts with a character that is not white
    space. *)
Lemma py_lstrip_head s :
  match py_lstrip s with
  | EmptyString => True
  | String c _ => py_isspace c = false
  end.
Proof.
  induction s as [|c s IH]; simpl; [done|].
  by destruct (py_isspace c) eqn:Hc.
Qed.

Lemma py_rstrip_head s :
  match s with EmptyString => True | String c _ => py_isspace c = false end →
  match py_rstrip s with
  | EmptyString => True
  | String c _ => py_isspace c = false
  end.
Proof.
  destruct s as [|c s]; simpl; [done|]. intros Hc.
  destruct (py_rstrip s); [by rewrite Hc|done].
Qed.

Lemma py_lstrip_fixed s :
  match s with EmptyString => True | String c _ => py_isspace c = false end →
  py_lstrip s = s.
Proof. destruct s as [|c s]; simpl; [done|]. by intros ->. Qed.

Lemma py_rstrip_idem s : py_rstrip (py_rstrip s) = py_rstrip s.
Proof.
  induction s as [|c s IH]; simpl; [done|].
  destruct (py_rstrip s) as [|d r] eqn:Hr.
  - destruct (py_isspace c) eqn:Hc; simpl; [done|]. by rewrite Hc.
  - simpl in *. by rewrite IH.
Qed.

(** X12. Reading a command is idempotent and its two steps commute: a line
    already stripped and lowercased reads as itself, and lowering before
    stripping gives the same command as stripping before lowering. *)
Theorem command_of_idempotent (line : string) :
  command_of (command_of line) = command_of line
  ∧ py_strip (py_strip line) = py_strip line
  ∧ py_strip (py_lower line) = py_lower (py_strip line).
Proof.
  assert (py_strip (py_strip line) = py_strip line) as Hstrip.
  { unfold py_strip.
    rewrite (py_lstrip_fixed (py_rstrip (py_lstrip line))).
    - apply py_rstrip_idem.
    - apply py_rstrip_head, py_lstrip_head. }
  assert (∀ s, py_strip (py_lower s) = py_lower (py_strip s)) as Hcomm.
  { intros s. unfold py_strip. by rewrite py_lstrip_lower, py_rstrip_lower. }
  split; [|by split].
  unfold command_of. by rewrite Hcomm, py_lower_idem, Hstrip.
Qed.

(** ** The buffer under interleavings *)

Lemma deque_append_length_bound {A} (d : deque A) (x : A) :
  length (items d) ≤ maxlen d → length (items (deque_append d x)) ≤ maxlen d.
Proof.
  intros Hle. unfold deque_append. simpl. case_decide as Hlt.
  - rewrite length_drop, length_app. simpl. lia.
  - lia.
Qed.

Lemma deque_append_NoDup_epc (d : deque TagData) (x : TagData) :
  NoDup (epc <$> items d) →
  epc x ∉ epc <$> items d →
  NoDup (epc <$> items (deque_append d x)).
Proof.
  intros Hnd Hx.
  assert (NoDup (epc <$> (items d ++ [x]))) as Hall.
  { rewrite fmap_app. apply NoDup_app. split; [done|]. split.
    - intros e He [->|Hnil]%elem_of_cons; [done|]. by apply elem_of_nil in Hnil.
    - apply NoDup_singleton. }
  unfold deque_append. simpl. case_decide; [|done].
  rewrite fmap_drop. eapply sublist_NoDup; [exact Hall|apply sublist_drop].
Qed.

Lemma step_worker_invariant c c' :
  step c c' → worker_invariant c → worker_invariant c'.
Proof.
  unfold worker_invariant.
  destruct 1 as [w tag q Hq Hn|w tag q Hq Hin|w tag|w tag|w tag|w pc|w pc tag];
    simpl; intros (Hnd & Hsub & Hmax & Hlen & Hpc).
  - done.
  - done.
  - repeat split; try done.
    + intros e He. apply elem_of_union. left. by apply Hsub.
    + apply elem_of_union. right. by apply elem_of_singleton.
    + intros Hin. apply Hpc. by apply Hsub.
  - destruct Hpc as [Hin Hfresh]. repeat split; try done.
    + by apply deque_append_NoDup_epc.
    + intros e (t & -> & Ht)%list_elem_of_fmap.
      apply elem_of_deque_append in Ht as [Ht| ->]; [|done].
      apply Hsub. apply list_elem_of_fmap. by exists t.
    + rewrite <- Hmax. apply deque_append_length_bound. lia.
  - done.
  - repeat split; try done.
    + apply NoDup_nil_2.
    + intros e He. by apply elem_of_nil in He.
    + lia.
    + destruct pc as [|t|t|t]; try done.
      destruct Hpc as [Hin _]. split; [done|]. apply not_elem_of_nil.
  - done.
Qed.

Lemma reachable_worker_invariant c : reachable c → worker_invariant c.
Proof.
  unfold reachable. revert c.
  apply (rtc_ind_r (R:=step) worker_invariant (init_world, at_get)).
  - unfold worker_invariant. simpl. repeat split; try done.
    + apply NoDup_nil_2.
    + intros e He. by apply elem_of_nil in He.
    + lia.
  - intros c1 c2 _ Hstep IH. by eapply step_worker_invariant.
Qed.

(** X13. However the worker's statements, the operator's clears and the
    callback's puts interleave, the buffer never holds two records with the
    same EPC and never more than 100 records. *)
Theorem buffer_distinct_and_bounded_under_interleaving (w : World) (pc : WorkerPC) :
  reachable (w, pc) →
  NoDup (epc <$> items (SEEN_TAGS w))
  ∧ length (items (SEEN_TAGS w)) ≤ 100
  ∧ maxlen (SEEN_TAGS w) = 100.
Proof.
  intros Hr.
  destruct (reachable_worker_invariant _ Hr) as (Hnd & _ & Hmax & Hlen & _).
  done.
Qed.

Lemma buffer_distinct_and_bounded_under_interleaving_witness :
  NoDup (epc <$> items (SEEN_TAGS
           (process_tags_iter (set_TAG_QUEUE [tag_A 1] init_world))))
  ∧ length (items (SEEN_TAGS
           (process_tags_iter (set_TAG_QUEUE [tag_A 1] init_world)))) ≤ 100
  ∧ maxlen (SEEN_TAGS
           (process_tags_iter (set_TAG_QUEUE [tag_A 1] init_world))) = 100.
Proof.
  apply (buffer_distinct_and_bounded_under_interleaving _ at_get).
  exact reachable_after_offer_A.
Defined.

(** ** The start of [main] *)

Lemma py_strip_empty_all_space s : py_strip s = "" → py_all_space s = true.
Proof.
  unfold py_strip. intros Hs. apply py_lstrip_empty.
  pose proof (py_lstrip_head s) as Hhead.
  destruct (py_lstrip s) as [|c t]; [done|]. simpl in Hs.
  destruct (py_rstrip t); [by rewrite Hhead in Hs|done].
Qed.

Lemma py_strip_all_space s : py_all_space s = true → py_strip s = "".
Proof. intros Hs. unfold py_strip. by rewrite py_lstrip_all_space. Qed.

(** X14. [main] connects exactly when the address line has a character that
    is not white space, and then to the address without its padding. On a
    blank line it prints the no-address notice and returns: no client is
    made, no transmit power is set, no further line is read and the state,
    [READER] included, is untouched. When the connect raises, [main] ends
    with that exception after the initializing notice, with no transmit
    power set and no prompt; [READER] is then the client handle that was
    made for the address, in the state the failed connect left it in. *)
Theorem main_address_gate
    (new_client : string → LLRPReaderClient)
    (connect : LLRPReaderClient → PyExn * LLRPReaderClient + LLRPReaderClient)
    (caps : PyExn + option (gmap Z (list Z)))
    (setTxPower : Z → Z → option PyExn)
    (llrp : LLRPCall → LLRPReaderClient → PyExn + LLRPReaderClient)
    (line : string) (rest : list string) (w : World) :
  (py_all_space line = true →
     main new_client connect caps setTxPower llrp (line :: rest) w
     = mkMainRun [out_no_ip] [] None (Ok w))
  ∧ (py_all_space line = false →
     connected_to (main new_client connect caps setTxPower llrp (line :: rest) w)
     = Some (py_strip line)
     ∧ py_strip line ≠ "")
  ∧ (∀ e r, py_all_space line = false →
     connect (new_client (py_strip line)) = inl (e, r) →
     main new_client connect caps setTxPower llrp (line :: rest) w
     = mkMainRun [out_initializing] [] (Some (py_strip line))
                 (Raised e (set_READER (Some r) w))).
Proof.
  split; [|split].
  - intros Hs. unfold main. by rewrite (py_strip_all_space _ Hs).
  - intros Hs.
    assert (py_strip line ≠ "") as Hne.
    { intros He%py_strip_empty_all_space. congruence. }
    split; [|done]. unfold main. rewrite decide_False by done.
    destruct (connect (new_client (py_strip line))) as [[e r]|r]; [done|].
    by destruct (configure_tx_power caps setTxPower).
  - intros e r Hs He.
    assert (py_strip line ≠ "") as Hne.
    { intros He'%py_strip_empty_all_space. congruence. }
    unfold main. rewrite decide_False by done. by rewrite He.
Qed.

Lemma main_address_gate_witness :
  main fresh_client (λ r, inr live_reader) (inl EOFError) (λ _ _, None) obedient_llrp
       ["   "; "exit"] init_world
  = mkMainRun [out_no_ip] [] None (Ok init_world)
  ∧ main fresh_client (λ r, inl (LLRPError "unreachable", r)) (inl EOFError)
         (λ _ _, None) obedient_llrp [" 10.0.0.5 "; "exit"] init_world
    = mkMainRun [out_initializing] [] (Some "10.0.0.5")
        (Raised (LLRPError "unreachable")
                (set_READER (Some (fresh_client "10.0.0.5")) init_world)).
Proof.
  split.
  - apply (main_address_gate fresh_client (λ r, inr live_reader) (inl EOFError)
             (λ _ _, None) obedient_llrp "   " ["exit"] init_world).
    reflexivity.
  - apply (main_address_gate fresh_client (λ r, inl (LLRPError "unreachable", r))
             (inl EOFError) (λ _ _, None) obedient_llrp " 10.0.0.5 " ["exit"]
             init_world); reflexivity.
Defined.

Lemma foldl_Z_max_spec (l : list Z) (x : Z) :
  (x ≤ foldl Z.max x l)%Z
  ∧ (∀ q, q ∈ l → (q ≤ foldl Z.max x l)%Z)
  ∧ (foldl Z.max x l = x ∨ foldl Z.max x l ∈ l).
Proof.
  revert x. induction l as [|y l IH]; intros x; simpl.
  - split; [lia|]. split; [|by left]. intros q Hq. by apply elem_of_nil in Hq.
  - destruct (IH (Z.max x y)) as (Hge & Hall & Hin).
    split; [lia|]. split.
    + intros q [->|Hq]%elem_of_cons; [lia|by apply Hall].
    + destruct Hin as [Heq|Hin].
      * rewrite Heq. destruct (Z.max_spec x y) as [[_ ->]|[_ ->]].
        -- right. by left.
        -- by left.
      * right. by right.
Qed.

Lemma py_max_spec (l : list Z) (m : Z) :
  py_max l = Some m → m ∈ l ∧ ∀ q, q ∈ l → (q ≤ m)%Z.
Proof.
  destruct l as [|x l]; simpl; [done|]. intros [= <-].
  destruct (foldl_Z_max_spec l x) as (Hge & Hall & Hin). split.
  - destruct Hin as [->|Hin]; [by left|by right].
  - intros q [->|Hq]%elem_of_cons; [done|by apply Hall].
Qed.

Lemma configure_tx_power_calls caps setTxPower antenna power :
  (antenna, power) ∈ fst (configure_tx_power caps setTxPower) →
  antenna = 2%Z
  ∧ ∃ table levels,
      caps = inr (Some table)
      ∧ table !! 2%Z = Some levels
      ∧ power ∈ levels
      ∧ (∀ q, q ∈ levels → (q ≤ power)%Z)
      ∧ fst (configure_tx_power caps setTxPower) = [(2%Z, power)].
Proof.
  unfold configure_tx_power. destruct caps as [e|[table|]]; simpl.
  - intros Hx. by apply elem_of_nil in Hx.
  - case_decide as Hempty; simpl; [intros Hx; by apply elem_of_nil in Hx|].
    destruct (table !! 2%Z) as [levels|] eqn:Hlv; simpl.
    + destruct (py_max levels) as [m|] eqn:Hmax; simpl.
      * destruct (py_max_spec _ _ Hmax) as [Hin Hall].
        destruct (setTxPower 2%Z m); simpl;
          intros [[= -> ->]|Hx]%elem_of_cons; try (by apply elem_of_nil in Hx);
          (split; [done|]); exists table, levels; done.
      * intros Hx. by apply elem_of_nil in Hx.
    + intros Hx. by apply elem_of_nil in Hx.
  - rewrite decide_True by done. simpl. intros Hx. by apply elem_of_nil in Hx.
Qed.

(** X15. [main] sets the transmit power at most once, for antenna 2 only,
    and to the highest of the levels the reader lists for antenna 2; what
    the reader lists for other antennas plays no part. *)
Theorem main_sets_maximum_power_of_antenna_2
    (new_client : string → LLRPReaderClient)
    (connect : LLRPReaderClient → PyExn * LLRPReaderClient + LLRPReaderClient)
    (caps : PyExn + option (gmap Z (list Z)))
    (setTxPower : Z → Z → option PyExn)
    (llrp : LLRPCall → LLRPReaderClient → PyExn + LLRPReaderClient)
    (inputs : list string) (w : World) (antenna power : Z) :
  (antenna, power) ∈ tx_power_calls (main new_client connect caps setTxPower llrp inputs w) →
  antenna = 2%Z
  ∧ tx_power_calls (main new_client connect caps setTxPower llrp inputs w) = [(2%Z, power)]
  ∧ ∃ table levels,
      caps = inr (Some table)
      ∧ table !! 2%Z = Some levels
      ∧ power ∈ levels
      ∧ ∀ q, q ∈ levels → (q ≤ power)%Z.
Proof.
  unfold main. destruct inputs as [|line rest]; simpl.
  { intros Hx. by apply elem_of_nil in Hx. }
  case_decide; simpl; [intros Hx; by apply elem_of_nil in Hx|].
  destruct (connect (new_client (py_strip line))) as [[e r]|r]; simpl;
    [intros Hx; by apply elem_of_nil in Hx|].
  destruct (configure_tx_power caps setTxPower) as [calls ln] eqn:Hcfg. simpl.
  intros Hin.
  destruct (configure_tx_power_calls caps setTxPower antenna power)
    as (-> & table & levels & Hcaps & Hlv & Hp & Hall & Hcalls).
  { by rewrite Hcfg. }
  rewrite Hcfg in Hcalls. simpl in Hcalls.
  split; [done|]. split; [done|]. by exists table, levels.
Qed.

Lemma main_sets_maximum_power_of_antenna_2_witness :
  tx_power_calls
    (main fresh_client (λ _, inr live_reader)
          (inr (Some {[ 1%Z := [9000%Z]; 2%Z := [1000%Z; 3000%Z; 2000%Z] ]}))
          (λ _ _, None) obedient_llrp ["10.0.0.5"; "exit"] init_world)
  = [(2%Z, 3000%Z)].
Proof.
  apply (main_sets_maximum_power_of_antenna_2 fresh_client (λ _, inr live_reader)
           (inr (Some {[ 1%Z := [9000%Z]; 2%Z := [1000%Z; 3000%Z; 2000%Z] ]}))
           (λ _ _, None) obedient_llrp ["10.0.0.5"; "exit"] init_world 2%Z 3000%Z).
  apply (bool_decide_unpack _). by vm_compute.
Defined.

(** X19. Whenever the reader lists at least one power level for antenna 2,
    the [try] block of [main] calls [setTxPower] exactly once, for antenna
    2 and with the highest listed level, whatever that call then does; it
    prints the success line when the call returns and the failure line when
    it raises. When the reader lists levels for other antennas only, or an
    empty list for antenna 2, no call is made and the line says that antenna
    2 has no power levels. *)
Theorem tx_power_set_when_levels_listed
    (table : gmap Z (list Z)) (setTxPower : Z → Z → option PyExn) :
  (∀ x levels, table !! 2%Z = Some (x :: levels) →
     ∃ m, m ∈ x :: levels
          ∧ (∀ q, q ∈ x :: levels → (q ≤ m)%Z)
          ∧ fst (configure_tx_power (inr (Some table)) setTxPower) = [(2%Z, m)]
          ∧ snd (configure_tx_power (inr (Some table)) setTxPower)
            = match setTxPower 2%Z m with
              | None => out_set_tx_power 2%Z m
              | Some e => out_failed_tx_power e
              end)
  ∧ (table ≠ ∅ → table !! 2%Z = None ∨ table !! 2%Z = Some [] →
     configure_tx_power (inr (Some table)) setTxPower = ([], out_no_power_levels 2%Z)).
Proof.
  split.
  - intros x levels Hlv.
    assert (table ≠ ∅) as Hne.
    { intros ->. by rewrite lookup_empty in Hlv. }
    destruct (py_max_spec (x :: levels) (foldl Z.max x levels) eq_refl)
      as [Hin Hall].
    exists (foldl Z.max x levels). split; [done|]. split; [done|].
    unfold configure_tx_power. simpl. rewrite decide_False by done.
    rewrite Hlv. simpl.
    by destruct (setTxPower 2%Z (foldl Z.max x levels)).
  - intros Hne Hlv. unfold configure_tx_power. simpl.
    rewrite decide_False by done.
    by destruct Hlv as [-> | ->].
Qed.

Lemma tx_power_set_when_levels_listed_witness :
  ∃ m, m ∈ [1000%Z; 3000%Z; 2000%Z]
       ∧ (∀ q, q ∈ [1000%Z; 3000%Z; 2000%Z] → (q ≤ m)%Z)
       ∧ fst (configure_tx_power
                (inr (Some {[ 1%Z := [9000%Z]; 2%Z := [1000%Z; 3000%Z; 2000%Z] ]}))
                (λ _ _, Some (LLRPError "refused")))
         = [(2%Z, m)]
       ∧ snd (configure_tx_power
                (inr (Some {[ 1%Z := [9000%Z]; 2%Z := [1000%Z; 3000%Z; 2000%Z] ]}))
                (λ _ _, Some (LLRPError "refused")))
         = out_failed_tx_power (LLRPError "refused").
Proof.
  destruct (tx_power_set_when_levels_listed
              {[ 1%Z := [9000%Z]; 2%Z := [1000%Z; 3000%Z; 2000%Z] ]}
              (λ _ _, Some (LLRPError "refused"))) as [Hset _].
  apply (Hset 1000%Z [3000%Z; 2000%Z]). reflexivity.
Defined.

(** ** From the queue to the console *)

Lemma run_offers_first_reports (q : list TagData) (w : World) :
  let evs := fst (run (op_offer <$> q) w) in
  concat (lines_of_event <$> evs)
  = concat ((λ t, lines_of_event (ev_offer t accepted)) <$> accepted_ever evs)
  ∧ accepted_ever evs `sublist_of` q
  ∧ (∀ t, t ∈ q → epc t ∈ seen_epcs w ∨ epc t ∈ epc <$> accepted_ever evs)
  ∧ (∀ t, t ∈ accepted_ever evs →
       (epc t ∉ seen_epcs w)
       ∧ ∃ pre post, q = pre ++ t :: post ∧ epc t ∉ epc <$> pre).
Proof.
  revert w. induction q as [|tag q IH]; intros w.
  - simpl. split; [done|]. split; [done|]. split.
    + intros t Ht. by apply elem_of_nil in Ht.
    + intros t Ht. by apply elem_of_nil in Ht.
  - cbv zeta in *. rewrite fmap_cons, run_offer. simpl fst.
    destruct (offer_cases tag w) as [(Hn & Hr & Hs & _)|[Hin Heq]].
    + rewrite Hr. destruct (IH (snd (offer tag w))) as (Hout & Hsub & Hall & Hfirst).
      change (accepted_ever (ev_offer tag accepted :: ?l))
        with (tag :: accepted_ever l).
      rewrite !fmap_cons. simpl concat. rewrite Hout.
      split; [done|]. split; [by apply sublist_skip|]. split.
      * intros t [->|Ht]%elem_of_cons; [right; by left|].
        destruct (Hall t Ht) as [Hseen|Hacc]; [|right; by right].
        rewrite Hs in Hseen. apply elem_of_union in Hseen as [?|Heq]; [by left|].
        apply elem_of_singleton in Heq. right. rewrite Heq. by left.
      * intros t [->|Ht]%elem_of_cons.
        -- split; [done|]. exists [], q. split; [done|]. apply not_elem_of_nil.
        -- destruct (Hfirst t Ht) as (Hfresh & pre & post & -> & Hpre).
           rewrite Hs in Hfresh. apply not_elem_of_union in Hfresh as [Hf1 Hf2].
           split; [done|]. exists (tag :: pre), post. split; [done|].
           rewrite fmap_cons. apply not_elem_of_cons. split; [|done].
           intros Hsame. apply Hf2. by apply elem_of_singleton.
    + rewrite Heq. simpl snd. simpl fst.
      destruct (IH w) as (Hout & Hsub & Hall & Hfirst).
      change (accepted_ever (ev_offer tag duplicate :: ?l))
        with (accepted_ever l).
      rewrite fmap_cons. simpl concat.
      split; [done|]. split; [by apply sublist_cons|]. split.
      * intros t [->|Ht]%elem_of_cons; [by left|by apply Hall].
      * intros t Ht. destruct (Hfirst t Ht) as (Hfresh & pre & post & -> & Hpre).
        split; [done|]. exists (tag :: pre), post. split; [done|].
        rewrite fmap_cons. apply not_elem_of_cons. split; [|done].
        intros Hsame. apply Hfresh. by rewrite Hsame.
Qed.

(** X17. Started on a queue of records, the worker shows every EPC of the
    queue exactly once, in queue order, with the attributes of the first
    record that carries it: later records of the same EPC print nothing,
    so a seen-count or timestamp shown is never updated. *)
Theorem worker_shows_first_report_of_each_epc (k : nat) (w : World) :
  let q := TAG_QUEUE w in
  let w' := process_tags_console (length q + k) w in
  ∃ shown : list TagData,
    stdout w' = stdout w ++ concat ((λ t, lines_of_event (ev_offer t accepted)) <$> shown)
    ∧ shown `sublist_of` q
    ∧ NoDup (epc <$> shown)
    ∧ (∀ t, t ∈ q → epc t ∈ epc <$> shown)
    ∧ (∀ t, t ∈ shown → ∃ pre post, q = pre ++ t :: post ∧ epc t ∉ epc <$> pre)
    ∧ TAG_QUEUE w' = [].
Proof.
  intros q w'. unfold w', process_tags_console.
  rewrite (process_tags_loop_drains q) by done.
  set (w0 := set_TAG_QUEUE [] (set_seen_epcs ∅ w)).
  exists (accepted_ever (fst (run (op_offer <$> q) w0))).
  destruct (run_offers_first_reports q w0) as (Hout & Hsub & Hall & Hfirst).
  destruct (run_stdout_and_frame (op_offer <$> q) w0) as (Hstd & _ & Hq & _).
  destruct (accepted_ever_NoDup (op_offer <$> q) w0) as [Hnd _].
  split; [by rewrite Hstd, Hout|]. split; [done|]. split; [done|]. split.
  { intros t Ht. destruct (Hall t Ht) as [Hseen|Hacc]; [|done].
    by apply not_elem_of_empty in Hseen. }
  split; [|done].
  intros t Ht. by destruct (Hfirst t Ht) as (_ & Hpre).
Qed.
